(** * Group law of the P-384 point layer (ecc/p384/point.go)

    The three point representations (affine, Jacobian, homogeneous), their
    conversions, the partial Jacobian addition, the mixed addition, the
    doubling, the complete homogeneous addition and the table of odd
    multiples, embedded over the interface of the field layer that point.go
    consumes. *)

From Stdlib Require Import String.
From Stdlib Require Import ZArith Bool List Lia.
From Stdlib Require Import Ring Field NsatzTactic.
From Stdlib Require Import Zmod.
Import ListNotations.

Local Open Scope Z_scope.

(** ** The field layer consumed by point.go

    point.go never looks inside an [fp384]: it only calls the primitives
    below, compares values with [==] and builds the two array literals
    [fp384{}] and [fp384{1}]. *)

Class FieldOps := {
  fp384 : Type;
  (** Go's [==] on the arrays. *)
  fp384_eqb : fp384 -> fp384 -> bool;
  (** [fp384{}], the zero value of the array type. *)
  fp384_zero : fp384;
  (** [fp384{1}], the array whose first limb is 1 (not yet encoded). *)
  fp384_lit1 : fp384;
  fp384Add : fp384 -> fp384 -> fp384;
  fp384Sub : fp384 -> fp384 -> fp384;
  fp384Mul : fp384 -> fp384 -> fp384;
  fp384Sqr : fp384 -> fp384;
  fp384Neg : fp384 -> fp384;
  fp384Inv : fp384 -> fp384;
  (** [fp384Cmov(x, y, b)]: x is replaced by y when b = 1. *)
  fp384Cmov : fp384 -> fp384 -> Z -> fp384;
  montEncode : fp384 -> fp384;
  montDecode : fp384 -> fp384;
  SetBigInt : Z -> fp384;
  BigInt : fp384 -> Z;
  (** The package-level variable [bb]: the curve coefficient b, encoded. *)
  bb : fp384
}.

(** ** Point types *)

Section Points.
Context {FO : FieldOps}.

(** [montEncode(&c, &fp384{1})]: the encoded one. *)
Definition fp384_one : fp384 := montEncode fp384_lit1.

(** [type affinePoint struct{ x, y fp384 }] *)
Record affinePoint := mkAffine { a_x : fp384; a_y : fp384 }.

(** [type jacobianPoint struct{ x, y, z fp384 }] *)
Record jacobianPoint := mkJacobian { j_x : fp384; j_y : fp384; j_z : fp384 }.

(** [type homogeneousPoint struct{ x, y, z fp384 }] *)
Record homogeneousPoint := mkHomogeneous { h_x : fp384; h_y : fp384; h_z : fp384 }.

(** *** Affine points *)

Definition newAffinePoint (X Y : Z) : affinePoint :=
  let Px := SetBigInt X in
  let Py := SetBigInt Y in
  let Px := montEncode Px in
  let Py := montEncode Py in
  mkAffine Px Py.

Definition zeroPoint : affinePoint := mkAffine fp384_zero fp384_zero.

Definition affinePoint_neg (ap : affinePoint) : affinePoint :=
  mkAffine (a_x ap) (fp384Neg (a_y ap)).

Definition affinePoint_isZero (ap : affinePoint) : bool :=
  fp384_eqb (a_x ap) fp384_zero && fp384_eqb (a_y ap) fp384_zero.

Definition affinePoint_toJacobian (ap : affinePoint) : jacobianPoint :=
  if affinePoint_isZero ap
  then mkJacobian fp384_one fp384_one fp384_zero
  else mkJacobian (a_x ap) (a_y ap) fp384_one.

Definition affinePoint_toHomogeneous (ap : affinePoint) : homogeneousPoint :=
  if affinePoint_isZero ap
  then mkHomogeneous fp384_zero fp384_one fp384_zero
  else mkHomogeneous (a_x ap) (a_y ap) fp384_one.

Definition affinePoint_toInt (ap : affinePoint) : Z * Z :=
  let x := montDecode (a_x ap) in
  let y := montDecode (a_y ap) in
  (BigInt x, BigInt y).

(** *** Jacobian points *)

Definition jacobianPoint_neg (P : jacobianPoint) : jacobianPoint :=
  mkJacobian (j_x P) (fp384Neg (j_y P)) (j_z P).

Definition jacobianPoint_cneg (P : jacobianPoint) (b : Z) : jacobianPoint :=
  let mY := fp384Neg (j_y P) in
  mkJacobian (j_x P) (fp384Cmov (j_y P) mY b) (j_z P).

Definition jacobianPoint_cmov (P Q : jacobianPoint) (b : Z) : jacobianPoint :=
  mkJacobian (fp384Cmov (j_x P) (j_x Q) b)
             (fp384Cmov (j_y P) (j_y Q) b)
             (fp384Cmov (j_z P) (j_z Q) b).

Definition jacobianPoint_toAffine (P : jacobianPoint) : affinePoint :=
  let z := fp384Inv (j_z P) in
  let z2 := fp384Sqr z in
  let aPx := fp384Mul (j_x P) z2 in
  let aPy := fp384Mul (j_y P) z in
  let aPy := fp384Mul aPy z2 in
  mkAffine aPx aPy.

Definition jacobianPoint_isZero (P : jacobianPoint) : bool :=
  negb (fp384_eqb (j_x P) fp384_zero)
  && negb (fp384_eqb (j_y P) fp384_zero)
  && fp384_eqb (j_z P) fp384_zero.

(** The intermediate term H of [add] (line 160), exposed on its own. *)
Definition jacobianPoint_add_H (Q R : jacobianPoint) : fp384 :=
  let Z1Z1 := fp384Sqr (j_z Q) in
  let Z2Z2 := fp384Sqr (j_z R) in
  let U1 := fp384Mul (j_x Q) Z2Z2 in
  let U2 := fp384Mul (j_x R) Z1Z1 in
  fp384Sub U2 U1.

(** [P.add(Q, R)]: every path assigns the three coordinates of the receiver,
    so the receiver's old value does not enter the result. *)
Definition jacobianPoint_add (Q R : jacobianPoint) : jacobianPoint :=
  if jacobianPoint_isZero Q then R
  else if jacobianPoint_isZero R then Q
  else
    let X1 := j_x Q in let Y1 := j_y Q in let Z1 := j_z Q in
    let X2 := j_x R in let Y2 := j_y R in let Z2 := j_z R in
    let Z1Z1 := fp384Sqr Z1 in
    let Z2Z2 := fp384Sqr Z2 in
    let U1 := fp384Mul X1 Z2Z2 in
    let U2 := fp384Mul X2 Z1Z1 in
    let t0 := fp384Mul Z2 Z2Z2 in
    let S1 := fp384Mul Y1 t0 in
    let t1 := fp384Mul Z1 Z1Z1 in
    let S2 := fp384Mul Y2 t1 in
    let H := fp384Sub U2 U1 in
    let HH := fp384Sqr H in
    let HHH := fp384Mul H HH in
    let RR := fp384Sub S2 S1 in
    let V := fp384Mul U1 HH in
    let t2 := fp384Sqr RR in
    let t3 := fp384Add V V in
    let t4 := fp384Sub t2 HHH in
    let Px := fp384Sub t4 t3 in
    let t5 := fp384Sub V Px in
    let t6 := fp384Mul S1 HHH in
    let t7 := fp384Mul RR t5 in
    let Py := fp384Sub t7 t6 in
    let t8 := fp384Mul Z2 H in
    let Pz := fp384Mul Z1 t8 in
    mkJacobian Px Py Pz.

(** [P.double()], in place: every assignment to a field of the receiver is a
    rebinding of [Px], [Py] or [Pz]. *)
Definition jacobianPoint_double (P : jacobianPoint) : jacobianPoint :=
  let Px := j_x P in let Py := j_y P in let Pz := j_z P in
  let delta := fp384Sqr Pz in
  let gamma := fp384Sqr Py in
  let alpha := fp384Sub Px delta in
  let alpha2 := fp384Add Px delta in
  let alpha := fp384Mul alpha alpha2 in
  let alpha2 := alpha in
  let alpha := fp384Add alpha alpha in
  let alpha := fp384Add alpha alpha2 in
  let beta := fp384Mul Px gamma in
  let Px := fp384Sqr alpha in
  let beta8 := fp384Add beta beta in
  let beta8 := fp384Add beta8 beta8 in
  let beta8 := fp384Add beta8 beta8 in
  let Px := fp384Sub Px beta8 in
  let Pz := fp384Add Py Pz in
  let Pz := fp384Sqr Pz in
  let Pz := fp384Sub Pz gamma in
  let Pz := fp384Sub Pz delta in
  let beta := fp384Add beta beta in
  let beta := fp384Add beta beta in
  let beta := fp384Sub beta Px in
  let Py := fp384Mul alpha beta in
  let gamma := fp384Sqr gamma in
  let gamma := fp384Add gamma gamma in
  let gamma := fp384Add gamma gamma in
  let gamma := fp384Add gamma gamma in
  let Py := fp384Sub Py gamma in
  mkJacobian Px Py Pz.

(** [P.mixadd(Q, R)]: the receiver is only written; when it is [Q] itself,
    no coordinate of [Q] is read after it has been overwritten. *)
Definition jacobianPoint_mixadd (Q : jacobianPoint) (R : affinePoint) : jacobianPoint :=
  if jacobianPoint_isZero Q then affinePoint_toJacobian R
  else if affinePoint_isZero R then Q
  else
    let z1z1 := fp384Sqr (j_z Q) in
    let u2 := fp384Mul (a_x R) z1z1 in
    let s2 := fp384Mul (a_y R) (j_z Q) in
    let s2 := fp384Mul s2 z1z1 in
    if fp384_eqb (j_x Q) u2 then
      if negb (fp384_eqb (j_y Q) s2)
      then affinePoint_toJacobian zeroPoint
      else jacobianPoint_double Q
    else
      let h := fp384Sub u2 (j_x Q) in
      let Pz := fp384Mul h (j_z Q) in
      let r := fp384Sub s2 (j_y Q) in
      let h2 := fp384Sqr h in
      let h3 := fp384Mul h2 h in
      let h3y1 := fp384Mul h3 (j_y Q) in
      let h2x1 := fp384Mul h2 (j_x Q) in
      let Px := fp384Sqr r in
      let Px := fp384Sub Px h3 in
      let Px := fp384Sub Px h2x1 in
      let Px := fp384Sub Px h2x1 in
      let Py := fp384Sub h2x1 Px in
      let Py := fp384Mul Py r in
      let Py := fp384Sub Py h3y1 in
      mkJacobian Px Py Pz.

Definition jacobianPoint_toHomogeneous (P : jacobianPoint) : homogeneousPoint :=
  let hPy := j_y P in
  let hPx := fp384Mul (j_x P) (j_z P) in
  let hPz := fp384Sqr (j_z P) in
  let hPz := fp384Mul hPz (j_z P) in
  mkHomogeneous hPx hPy hPz.

Definition jacobianPoint_toInt (P : jacobianPoint) : Z * Z * Z :=
  (BigInt (montDecode (j_x P)), BigInt (montDecode (j_y P)), BigInt (montDecode (j_z P))).

(** *** Homogeneous points *)

Definition homogeneousPoint_cneg (P : homogeneousPoint) (b : Z) : homogeneousPoint :=
  let mY := fp384Neg (h_y P) in
  mkHomogeneous (h_x P) (fp384Cmov (h_y P) mY b) (h_z P).

Definition homogeneousPoint_toAffine (P : homogeneousPoint) : affinePoint :=
  let z := fp384Inv (h_z P) in
  mkAffine (fp384Mul (h_x P) z) (fp384Mul (h_y P) z).

Definition homogeneousPoint_isZero (P : homogeneousPoint) : bool :=
  fp384_eqb (h_x P) fp384_zero
  && negb (fp384_eqb (h_y P) fp384_zero)
  && fp384_eqb (h_z P) fp384_zero.

(** [P.completeAdd(Q, R)]: the 43 steps on the values of the operands, each
    reassignment of a temporary a rebinding. *)
Definition homogeneousPoint_completeAdd (Q R : homogeneousPoint) : homogeneousPoint :=
  let X1 := h_x Q in let Y1 := h_y Q in let Z1 := h_z Q in
  let X2 := h_x R in let Y2 := h_y R in let Z2 := h_z R in
  let t0 := fp384Mul X1 X2 in
  let t1 := fp384Mul Y1 Y2 in
  let t2 := fp384Mul Z1 Z2 in
  let t3 := fp384Add X1 Y1 in
  let t4 := fp384Add X2 Y2 in
  let t3 := fp384Mul t3 t4 in
  let t4 := fp384Add t0 t1 in
  let t3 := fp384Sub t3 t4 in
  let t4 := fp384Add Y1 Z1 in
  let X3 := fp384Add Y2 Z2 in
  let t4 := fp384Mul t4 X3 in
  let X3 := fp384Add t1 t2 in
  let t4 := fp384Sub t4 X3 in
  let X3 := fp384Add X1 Z1 in
  let Y3 := fp384Add X2 Z2 in
  let X3 := fp384Mul X3 Y3 in
  let Y3 := fp384Add t0 t2 in
  let Y3 := fp384Sub X3 Y3 in
  let Z3 := fp384Mul bb t2 in
  let X3 := fp384Sub Y3 Z3 in
  let Z3 := fp384Add X3 X3 in
  let X3 := fp384Add X3 Z3 in
  let Z3 := fp384Sub t1 X3 in
  let X3 := fp384Add t1 X3 in
  let Y3 := fp384Mul bb Y3 in
  let t1 := fp384Add t2 t2 in
  let t2 := fp384Add t1 t2 in
  let Y3 := fp384Sub Y3 t2 in
  let Y3 := fp384Sub Y3 t0 in
  let t1 := fp384Add Y3 Y3 in
  let Y3 := fp384Add t1 Y3 in
  let t1 := fp384Add t0 t0 in
  let t0 := fp384Add t1 t0 in
  let t0 := fp384Sub t0 t2 in
  let t1 := fp384Mul t4 Y3 in
  let t2 := fp384Mul t0 Y3 in
  let Y3 := fp384Mul X3 Z3 in
  let Y3 := fp384Add Y3 t2 in
  let X3 := fp384Mul t3 X3 in
  let X3 := fp384Sub X3 t1 in
  let Z3 := fp384Mul t4 Z3 in
  let t1 := fp384Mul t3 t0 in
  let Z3 := fp384Add Z3 t1 in
  mkHomogeneous X3 Y3 Z3.

(** *** The table of odd multiples *)

(** Two's-complement wrap of an [int32] result. *)
Definition int32 (z : Z) : Z := (z + 2 ^ 31) mod 2 ^ 32 - 2 ^ 31.

(** [int32(1) << k] for an unsigned count: counts of 32 and more give 0. *)
Definition int32_shl1 (k : Z) : Z := if k <? 32 then int32 (Z.shiftl 1 k) else 0.

(** [make([]jacobianPoint, s)]: [s] zero values. *)
Definition make_jacobian (s : Z) : list jacobianPoint :=
  repeat (mkJacobian fp384_zero fp384_zero fp384_zero) (Z.to_nat s).

(** [t[i]] as a read: [None] stands for the index-out-of-range panic. *)
Definition slice_get (t : list jacobianPoint) (i : Z) : option jacobianPoint :=
  if i <? 0 then None else nth_error t (Z.to_nat i).

Fixpoint slice_put (t : list jacobianPoint) (i : nat) (v : jacobianPoint)
  : option (list jacobianPoint) :=
  match t, i with
  | [], _ => None
  | _ :: t', O => Some (v :: t')
  | a :: t', S i' =>
      match slice_put t' i' v with
      | Some r => Some (a :: r)
      | None => None
      end
  end.

(** [t[i] = v]: [None] stands for the index-out-of-range panic. *)
Definition slice_set (t : list jacobianPoint) (i : Z) (v : jacobianPoint)
  : option (list jacobianPoint) :=
  if i <? 0 then None else slice_put t (Z.to_nat i) v.

(** [for i := int32(1); i < s; i++ { t[i].add(&t[i-1], &_2P) }], started at
    [i].  The fuel bounds the number of iterations; running out of it is
    reported as [None], like a panic. *)
Fixpoint oddMultiples_for (fuel : nat) (s i : Z) (_2P : jacobianPoint)
    (t : list jacobianPoint) : option (list jacobianPoint) :=
  if i <? s then
    match fuel with
    | O => None
    | S fuel' =>
        match slice_get t (i - 1) with
        | None => None
        | Some prev =>
            match slice_set t i (jacobianPoint_add prev _2P) with
            | None => None
            | Some t' => oddMultiples_for fuel' s (int32 (i + 1)) _2P t'
            end
        end
    end
  else Some t.

(** [ap.oddMultiples(n)], [n] an unsigned machine integer. *)
Definition affinePoint_oddMultiples (ap : affinePoint) (n : Z)
  : option (list jacobianPoint) :=
  if (1 <? n) && (n <? 31) then
    let P := affinePoint_toJacobian ap in
    let s := int32_shl1 (n - 1) in
    let t := make_jacobian s in
    match slice_set t 0 P with
    | None => None
    | Some t =>
        let _2P := jacobianPoint_double P in
        oddMultiples_for (Z.to_nat s) s (int32 1) _2P t
    end
  else Some [].

(** ** completeAdd on a memory with pointers

    The method as Go runs it: the operands and the receiver are addresses of
    points that may coincide, the eleven working variables are pointers to
    freshly allocated field elements, every primitive loads its arguments
    through pointers and stores through its first argument. *)

Inductive coord := Cx | Cy | Cz.

Inductive local := LX3 | LY3 | LZ3 | Lt0 | Lt1 | Lt2 | Lt3 | Lt4.

Inductive ptr :=
| FieldOf (obj : nat) (c : coord)   (* &obj.x, &obj.y, &obj.z *)
| LocalVar (v : local).             (* &fp384{} of the method body *)

Inductive operand :=
| Deref (p : ptr)
| Global_bb.                        (* &bb *)

Record memory := mkMemory {
  objects : nat -> homogeneousPoint;
  locals : local -> fp384
}.

Definition coord_of (c : coord) (P : homogeneousPoint) : fp384 :=
  match c with Cx => h_x P | Cy => h_y P | Cz => h_z P end.

Definition coord_upd (c : coord) (v : fp384) (P : homogeneousPoint) : homogeneousPoint :=
  match c with
  | Cx => mkHomogeneous v (h_y P) (h_z P)
  | Cy => mkHomogeneous (h_x P) v (h_z P)
  | Cz => mkHomogeneous (h_x P) (h_y P) v
  end.

Definition local_eqb (a b : local) : bool :=
  match a, b with
  | LX3, LX3 | LY3, LY3 | LZ3, LZ3 | Lt0, Lt0 | Lt1, Lt1
  | Lt2, Lt2 | Lt3, Lt3 | Lt4, Lt4 => true
  | _, _ => false
  end.

Definition load (m : memory) (a : operand) : fp384 :=
  match a with
  | Deref (FieldOf o c) => coord_of c (objects m o)
  | Deref (LocalVar v) => locals m v
  | Global_bb => bb
  end.

Definition store (m : memory) (p : ptr) (v : fp384) : memory :=
  match p with
  | FieldOf o c =>
      mkMemory (fun o' => if Nat.eqb o' o then coord_upd c v (objects m o') else objects m o')
               (locals m)
  | LocalVar x =>
      mkMemory (objects m) (fun x' => if local_eqb x' x then v else locals m x')
  end.

Definition mem_fp384Mul (c : ptr) (a b : operand) (m : memory) : memory :=
  store m c (fp384Mul (load m a) (load m b)).
Definition mem_fp384Add (c : ptr) (a b : operand) (m : memory) : memory :=
  store m c (fp384Add (load m a) (load m b)).
Definition mem_fp384Sub (c : ptr) (a b : operand) (m : memory) : memory :=
  store m c (fp384Sub (load m a) (load m b)).

(** The fresh working variables: all [&fp384{}]. *)
Definition fresh_locals (m : memory) : memory :=
  mkMemory (objects m) (fun _ => fp384_zero).

(** [P.x, P.y, P.z = *X3, *Y3, *Z3]: the right-hand sides are read first. *)
Definition assign_point (P : nat) (vx vy vz : fp384) (m : memory) : memory :=
  store (store (store m (FieldOf P Cx) vx) (FieldOf P Cy) vy) (FieldOf P Cz) vz.

Definition homogeneousPoint_completeAdd_mem (P Q R : nat) (m : memory) : memory :=
  let X1 := Deref (FieldOf Q Cx) in
  let Y1 := Deref (FieldOf Q Cy) in
  let Z1 := Deref (FieldOf Q Cz) in
  let X2 := Deref (FieldOf R Cx) in
  let Y2 := Deref (FieldOf R Cy) in
  let Z2 := Deref (FieldOf R Cz) in
  let X3 := LocalVar LX3 in let Y3 := LocalVar LY3 in let Z3 := LocalVar LZ3 in
  let t0 := LocalVar Lt0 in let t1 := LocalVar Lt1 in let t2 := LocalVar Lt2 in
  let t3 := LocalVar Lt3 in let t4 := LocalVar Lt4 in
  let m := fresh_locals m in
  let m := mem_fp384Mul t0 X1 X2 m in
  let m := mem_fp384Mul t1 Y1 Y2 m in
  let m := mem_fp384Mul t2 Z1 Z2 m in
  let m := mem_fp384Add t3 X1 Y1 m in
  let m := mem_fp384Add t4 X2 Y2 m in
  let m := mem_fp384Mul t3 (Deref t3) (Deref t4) m in
  let m := mem_fp384Add t4 (Deref t0) (Deref t1) m in
  let m := mem_fp384Sub t3 (Deref t3) (Deref t4) m in
  let m := mem_fp384Add t4 Y1 Z1 m in
  let m := mem_fp384Add X3 Y2 Z2 m in
  let m := mem_fp384Mul t4 (Deref t4) (Deref X3) m in
  let m := mem_fp384Add X3 (Deref t1) (Deref t2) m in
  let m := mem_fp384Sub t4 (Deref t4) (Deref X3) m in
  let m := mem_fp384Add X3 X1 Z1 m in
  let m := mem_fp384Add Y3 X2 Z2 m in
  let m := mem_fp384Mul X3 (Deref X3) (Deref Y3) m in
  let m := mem_fp384Add Y3 (Deref t0) (Deref t2) m in
  let m := mem_fp384Sub Y3 (Deref X3) (Deref Y3) m in
  let m := mem_fp384Mul Z3 Global_bb (Deref t2) m in
  let m := mem_fp384Sub X3 (Deref Y3) (Deref Z3) m in
  let m := mem_fp384Add Z3 (Deref X3) (Deref X3) m in
  let m := mem_fp384Add X3 (Deref X3) (Deref Z3) m in
  let m := mem_fp384Sub Z3 (Deref t1) (Deref X3) m in
  let m := mem_fp384Add X3 (Deref t1) (Deref X3) m in
  let m := mem_fp384Mul Y3 Global_bb (Deref Y3) m in
  let m := mem_fp384Add t1 (Deref t2) (Deref t2) m in
  let m := mem_fp384Add t2 (Deref t1) (Deref t2) m in
  let m := mem_fp384Sub Y3 (Deref Y3) (Deref t2) m in
  let m := mem_fp384Sub Y3 (Deref Y3) (Deref t0) m in
  let m := mem_fp384Add t1 (Deref Y3) (Deref Y3) m in
  let m := mem_fp384Add Y3 (Deref t1) (Deref Y3) m in
  let m := mem_fp384Add t1 (Deref t0) (Deref t0) m in
  let m := mem_fp384Add t0 (Deref t1) (Deref t0) m in
  let m := mem_fp384Sub t0 (Deref t0) (Deref t2) m in
  let m := mem_fp384Mul t1 (Deref t4) (Deref Y3) m in
  let m := mem_fp384Mul t2 (Deref t0) (Deref Y3) m in
  let m := mem_fp384Mul Y3 (Deref X3) (Deref Z3) m in
  let m := mem_fp384Add Y3 (Deref Y3) (Deref t2) m in
  let m := mem_fp384Mul X3 (Deref t3) (Deref X3) m in
  let m := mem_fp384Sub X3 (Deref X3) (Deref t1) m in
  let m := mem_fp384Mul Z3 (Deref t4) (Deref Z3) m in
  let m := mem_fp384Mul t1 (Deref t3) (Deref t0) m in
  let m := mem_fp384Add Z3 (Deref Z3) (Deref t1) m in
  assign_point P (load m (Deref X3)) (load m (Deref Y3)) (load m (Deref Z3)) m.

(** ** The Jacobian methods on a memory with pointers

    [add], [mixadd] and [double] as Go runs them: the receiver and the
    Jacobian operands are addresses of points that may coincide, the working
    variables are pointers to fresh field elements named as in the source,
    and the receiver's coordinates are stored in the middle of the
    computation.  The affine operand of [mixadd] has another type and cannot
    overlap a Jacobian point: it is read as a value. *)

Inductive jptr :=
| JField (obj : nat) (c : coord)        (* &obj.x, &obj.y, &obj.z *)
| JLocal (name : String.string).        (* a working variable of the method *)

Inductive joperand :=
| JDeref (p : jptr)
| JValue (v : fp384).                   (* a coordinate of the affine operand *)

Record jmemory := mkJMemory {
  jobjects : nat -> jacobianPoint;
  jlocals : String.string -> fp384
}.

Definition jcoord_of (c : coord) (P : jacobianPoint) : fp384 :=
  match c with Cx => j_x P | Cy => j_y P | Cz => j_z P end.

Definition jcoord_upd (c : coord) (v : fp384) (P : jacobianPoint) : jacobianPoint :=
  match c with
  | Cx => mkJacobian v (j_y P) (j_z P)
  | Cy => mkJacobian (j_x P) v (j_z P)
  | Cz => mkJacobian (j_x P) (j_y P) v
  end.

Definition jload (m : jmemory) (a : joperand) : fp384 :=
  match a with
  | JDeref (JField o c) => jcoord_of c (jobjects m o)
  | JDeref (JLocal x) => jlocals m x
  | JValue v => v
  end.

Definition jstore (m : jmemory) (p : jptr) (v : fp384) : jmemory :=
  match p with
  | JField o c =>
      mkJMemory (fun o' => if Nat.eqb o' o then jcoord_upd c v (jobjects m o')
                           else jobjects m o')
                (jlocals m)
  | JLocal x =>
      mkJMemory (jobjects m)
                (fun x' => if String.eqb x' x then v else jlocals m x')
  end.

(** [*P = v]: the whole struct is overwritten. *)
Definition jassign (m : jmemory) (P : nat) (v : jacobianPoint) : jmemory :=
  mkJMemory (fun o' => if Nat.eqb o' P then v else jobjects m o') (jlocals m).

(** [*a = *b] on field elements. *)
Definition jcopy (c : jptr) (a : joperand) (m : jmemory) : jmemory :=
  jstore m c (jload m a).

Definition jmem_fp384Mul (c : jptr) (a b : joperand) (m : jmemory) : jmemory :=
  jstore m c (fp384Mul (jload m a) (jload m b)).
Definition jmem_fp384Add (c : jptr) (a b : joperand) (m : jmemory) : jmemory :=
  jstore m c (fp384Add (jload m a) (jload m b)).
Definition jmem_fp384Sub (c : jptr) (a b : joperand) (m : jmemory) : jmemory :=
  jstore m c (fp384Sub (jload m a) (jload m b)).
Definition jmem_fp384Sqr (c : jptr) (a : joperand) (m : jmemory) : jmemory :=
  jstore m c (fp384Sqr (jload m a)).

(** The working variables of a method call: all [&fp384{}]. *)
Definition jfresh (m : jmemory) : jmemory :=
  mkJMemory (jobjects m) (fun _ => fp384_zero).

Local Open Scope string_scope.

Definition jacobianPoint_double_mem (P : nat) (m : jmemory) : jmemory :=
  let Px := JField P Cx in let Py := JField P Cy in let Pz := JField P Cz in
  let delta := JLocal "delta" in let gamma := JLocal "gamma" in
  let alpha := JLocal "alpha" in let alpha2 := JLocal "alpha2" in
  let beta := JLocal "beta" in let beta8 := JLocal "beta8" in
  let m := jfresh m in
  let m := jmem_fp384Sqr delta (JDeref Pz) m in
  let m := jmem_fp384Sqr gamma (JDeref Py) m in
  let m := jmem_fp384Sub alpha (JDeref Px) (JDeref delta) m in
  let m := jmem_fp384Add alpha2 (JDeref Px) (JDeref delta) m in
  let m := jmem_fp384Mul alpha (JDeref alpha) (JDeref alpha2) m in
  let m := jcopy alpha2 (JDeref alpha) m in
  let m := jmem_fp384Add alpha (JDeref alpha) (JDeref alpha) m in
  let m := jmem_fp384Add alpha (JDeref alpha) (JDeref alpha2) m in
  let m := jmem_fp384Mul beta (JDeref Px) (JDeref gamma) m in
  let m := jmem_fp384Sqr Px (JDeref alpha) m in
  let m := jmem_fp384Add beta8 (JDeref beta) (JDeref beta) m in
  let m := jmem_fp384Add beta8 (JDeref beta8) (JDeref beta8) m in
  let m := jmem_fp384Add beta8 (JDeref beta8) (JDeref beta8) m in
  let m := jmem_fp384Sub Px (JDeref Px) (JDeref beta8) m in
  let m := jmem_fp384Add Pz (JDeref Py) (JDeref Pz) m in
  let m := jmem_fp384Sqr Pz (JDeref Pz) m in
  let m := jmem_fp384Sub Pz (JDeref Pz) (JDeref gamma) m in
  let m := jmem_fp384Sub Pz (JDeref Pz) (JDeref delta) m in
  let m := jmem_fp384Add beta (JDeref beta) (JDeref beta) m in
  let m := jmem_fp384Add beta (JDeref beta) (JDeref beta) m in
  let m := jmem_fp384Sub beta (JDeref beta) (JDeref Px) m in
  let m := jmem_fp384Mul Py (JDeref alpha) (JDeref beta) m in
  let m := jmem_fp384Sqr gamma (JDeref gamma) m in
  let m := jmem_fp384Add gamma (JDeref gamma) (JDeref gamma) m in
  let m := jmem_fp384Add gamma (JDeref gamma) (JDeref gamma) m in
  let m := jmem_fp384Add gamma (JDeref gamma) (JDeref gamma) m in
  jmem_fp384Sub Py (JDeref Py) (JDeref gamma) m.

Definition jacobianPoint_add_mem (P Q R : nat) (m : jmemory) : jmemory :=
  if jacobianPoint_isZero (jobjects m Q) then jassign m P (jobjects m R)
  else if jacobianPoint_isZero (jobjects m R) then jassign m P (jobjects m Q)
  else
    let X1 := JDeref (JField Q Cx) in
    let Y1 := JDeref (JField Q Cy) in
    let Z1 := JDeref (JField Q Cz) in
    let X2 := JDeref (JField R Cx) in
    let Y2 := JDeref (JField R Cy) in
    let Z2 := JDeref (JField R Cz) in
    let Px := JField P Cx in let Py := JField P Cy in let Pz := JField P Cz in
    let Z1Z1 := JLocal "Z1Z1" in let Z2Z2 := JLocal "Z2Z2" in
    let U1 := JLocal "U1" in let U2 := JLocal "U2" in
    let H := JLocal "H" in let HH := JLocal "HH" in
    let HHH := JLocal "HHH" in let RR := JLocal "RR" in
    let V := JLocal "V" in let t4 := JLocal "t4" in let t5 := JLocal "t5" in
    let t6 := JLocal "t6" in let t7 := JLocal "t7" in let t8 := JLocal "t8" in
    let t0 := JLocal "t0" in let t1 := JLocal "t1" in let t2 := JLocal "t2" in
    let t3 := JLocal "t3" in let S1 := JLocal "S1" in let S2 := JLocal "S2" in
    let m := jfresh m in
    let m := jmem_fp384Sqr Z1Z1 Z1 m in
    let m := jmem_fp384Sqr Z2Z2 Z2 m in
    let m := jmem_fp384Mul U1 X1 (JDeref Z2Z2) m in
    let m := jmem_fp384Mul U2 X2 (JDeref Z1Z1) m in
    let m := jmem_fp384Mul t0 Z2 (JDeref Z2Z2) m in
    let m := jmem_fp384Mul S1 Y1 (JDeref t0) m in
    let m := jmem_fp384Mul t1 Z1 (JDeref Z1Z1) m in
    let m := jmem_fp384Mul S2 Y2 (JDeref t1) m in
    let m := jmem_fp384Sub H (JDeref U2) (JDeref U1) m in
    let m := jmem_fp384Sqr HH (JDeref H) m in
    let m := jmem_fp384Mul HHH (JDeref H) (JDeref HH) m in
    let m := jmem_fp384Sub RR (JDeref S2) (JDeref S1) m in
    let m := jmem_fp384Mul V (JDeref U1) (JDeref HH) m in
    let m := jmem_fp384Sqr t2 (JDeref RR) m in
    let m := jmem_fp384Add t3 (JDeref V) (JDeref V) m in
    let m := jmem_fp384Sub t4 (JDeref t2) (JDeref HHH) m in
    let m := jmem_fp384Sub Px (JDeref t4) (JDeref t3) m in
    let m := jmem_fp384Sub t5 (JDeref V) (JDeref Px) m in
    let m := jmem_fp384Mul t6 (JDeref S1) (JDeref HHH) m in
    let m := jmem_fp384Mul t7 (JDeref RR) (JDeref t5) m in
    let m := jmem_fp384Sub Py (JDeref t7) (JDeref t6) m in
    let m := jmem_fp384Mul t8 Z2 (JDeref H) m in
    jmem_fp384Mul Pz Z1 (JDeref t8) m.

Definition jacobianPoint_mixadd_mem (P Q : nat) (R : affinePoint) (m : jmemory)
  : jmemory :=
  if jacobianPoint_isZero (jobjects m Q) then jassign m P (affinePoint_toJacobian R)
  else if affinePoint_isZero R then jassign m P (jobjects m Q)
  else
    let Qx := JDeref (JField Q Cx) in
    let Qy := JDeref (JField Q Cy) in
    let Qz := JDeref (JField Q Cz) in
    let Rx := JValue (a_x R) in let Ry := JValue (a_y R) in
    let Px := JField P Cx in let Py := JField P Cy in let Pz := JField P Cz in
    let z1z1 := JLocal "z1z1" in let u2 := JLocal "u2" in
    let s2 := JLocal "s2" in let h := JLocal "h" in let r := JLocal "r" in
    let h2 := JLocal "h2" in let h3 := JLocal "h3" in
    let h3y1 := JLocal "h3y1" in let h2x1 := JLocal "h2x1" in
    let m := jfresh m in
    let m := jmem_fp384Sqr z1z1 Qz m in
    let m := jmem_fp384Mul u2 Rx (JDeref z1z1) m in
    let m := jmem_fp384Mul s2 Ry Qz m in
    let m := jmem_fp384Mul s2 (JDeref s2) (JDeref z1z1) m in
    if fp384_eqb (jload m Qx) (jload m (JDeref u2)) then
      if negb (fp384_eqb (jload m Qy) (jload m (JDeref s2)))
      then jassign m P (affinePoint_toJacobian zeroPoint)
      else jacobianPoint_double_mem P (jassign m P (jobjects m Q))
    else
      let m := jmem_fp384Sub h (JDeref u2) Qx m in
      let m := jmem_fp384Mul Pz (JDeref h) Qz m in
      let m := jmem_fp384Sub r (JDeref s2) Qy m in
      let m := jmem_fp384Sqr h2 (JDeref h) m in
      let m := jmem_fp384Mul h3 (JDeref h2) (JDeref h) m in
      let m := jmem_fp384Mul h3y1 (JDeref h3) Qy m in
      let m := jmem_fp384Mul h2x1 (JDeref h2) Qx m in
      let m := jmem_fp384Sqr Px (JDeref r) m in
      let m := jmem_fp384Sub Px (JDeref Px) (JDeref h3) m in
      let m := jmem_fp384Sub Px (JDeref Px) (JDeref h2x1) m in
      let m := jmem_fp384Sub Px (JDeref Px) (JDeref h2x1) m in
      let m := jmem_fp384Sub Py (JDeref h2x1) (JDeref Px) m in
      let m := jmem_fp384Mul Py (JDeref Py) (JDeref r) m in
      jmem_fp384Sub Py (JDeref Py) (JDeref h3y1) m.

Local Close Scope string_scope.

End Points.

(** ** The reference group law

    The chord-and-tangent law of the curve y^2 = x^3 - 3x + b on affine
    points, with (0,0) standing for the point at infinity as in
    [affinePoint]: the sum that the package's tests take from an independent
    implementation.  None of the formulas of point.go enters it. *)

Declare Scope fp_scope.
Delimit Scope fp_scope with fp.

Section Reference.
Context {FO : FieldOps}.

Local Notation "0" := fp384_zero : fp_scope.
Local Notation "1" := fp384_one : fp_scope.
Local Infix "+" := fp384Add : fp_scope.
Local Infix "-" := fp384Sub : fp_scope.
Local Infix "*" := fp384Mul : fp_scope.
Local Notation "- x" := (fp384Neg x) : fp_scope.
Local Notation "x / y" := (fp384Mul x (fp384Inv y)) : fp_scope.
Local Open Scope fp_scope.

Definition fp384_two : fp384 := 1 + 1.
Definition fp384_three : fp384 := 1 + (1 + 1).

(** The coefficient a of P-384. *)
Definition curve_a : fp384 := - fp384_three.

(** The affine curve equation, with the package's [bb] as coefficient b. *)
Definition on_curve (x y : fp384) : Prop :=
  y * y = x * x * x + curve_a * x + bb.

Definition on_curveb (x y : fp384) : bool :=
  fp384_eqb (y * y) (x * x * x + curve_a * x + bb).

(** An affine value that stands for a group element. *)
Definition affine_valid (P : affinePoint) : Prop :=
  affinePoint_isZero P = true \/ on_curve (a_x P) (a_y P).

(** A Jacobian triple that stands for a group element: an identity encoding
    or Y^2 = X^3 - 3 X Z^4 + b Z^6 with Z nonzero. *)
Definition jacobian_valid (P : jacobianPoint) : Prop :=
  jacobianPoint_isZero P = true \/
  (j_z P <> 0 /\
   let z2 := j_z P * j_z P in
   let z4 := z2 * z2 in
   j_y P * j_y P = j_x P * j_x P * j_x P + curve_a * j_x P * z4 + bb * (z4 * z2)).

(** A homogeneous triple that stands for a group element: an identity
    encoding (0, y, 0) or Y^2 Z = X^3 - 3 X Z^2 + b Z^3 with Z nonzero. *)
Definition homogeneous_valid (P : homogeneousPoint) : Prop :=
  homogeneousPoint_isZero P = true \/
  (h_z P <> 0 /\
   h_y P * h_y P * h_z P =
   h_x P * h_x P * h_x P + curve_a * h_x P * (h_z P * h_z P)
   + bb * (h_z P * h_z P * h_z P)).

Definition group_add (P Q : affinePoint) : affinePoint :=
  if affinePoint_isZero P then Q
  else if affinePoint_isZero Q then P
  else
    let x1 := a_x P in let y1 := a_y P in
    let x2 := a_x Q in let y2 := a_y Q in
    if fp384_eqb x1 x2 then
      if fp384_eqb y1 (- y2) then zeroPoint
      else
        let lam := (fp384_three * (x1 * x1) + curve_a) / (fp384_two * y1) in
        let x3 := lam * lam - x1 - x2 in
        mkAffine x3 (lam * (x1 - x3) - y1)
    else
      let lam := (y2 - y1) / (x2 - x1) in
      let x3 := lam * lam - x1 - x2 in
      mkAffine x3 (lam * (x1 - x3) - y1).

(** The Jacobian curve equation Y^2 = X^3 - 3 X Z^4 + b Z^6. *)
Definition jacobian_eqn (X Y Z : fp384) : Prop :=
  Y * Y = X * X * X - (1 + (1 + 1)) * X * ((Z * Z) * (Z * Z))
          + bb * ((Z * Z) * (Z * Z) * (Z * Z)).

(** A Jacobian triple with Z nonzero on the curve. *)
Definition jacobian_finite (T : jacobianPoint) : Prop :=
  j_z T <> 0 /\ jacobian_eqn (j_x T) (j_y T) (j_z T).

(** The common multiple of a homogeneous triple. *)
Definition hscale (c : fp384) (P : homogeneousPoint) : homogeneousPoint :=
  mkHomogeneous (c * h_x P) (c * h_y P) (c * h_z P).

(** k.P by repeated addition. *)
Fixpoint group_mul (k : nat) (P : affinePoint) : affinePoint :=
  match k with
  | O => zeroPoint
  | S k' => group_add P (group_mul k' P)
  end.

(** The j-th entry of a table of odd multiples of [P]: a finite Jacobian
    triple that decodes to (2j+1).P. *)
Definition odd_entry (P : affinePoint) (j : nat) (T : jacobianPoint) : Prop :=
  jacobian_finite T /\ jacobianPoint_toAffine T = group_mul (2 * j + 1) P.

(** The complete addition law of Renes, Costello and Batina for
    y^2 = x^3 + a x + b in homogeneous coordinates, written as its three
    polynomials, for arbitrary coefficients [a] and [b]. *)
Definition complete_law (a b : fp384) (Q R : homogeneousPoint) : homogeneousPoint :=
  let X1 := h_x Q in let Y1 := h_y Q in let Z1 := h_z Q in
  let X2 := h_x R in let Y2 := h_y R in let Z2 := h_z R in
  let b3 := fp384_three * b in
  let xz := X1 * Z2 + X2 * Z1 in
  let xy := X1 * Y2 + X2 * Y1 in
  let yz := Y1 * Z2 + Y2 * Z1 in
  let u := a * (X1 * X2) + b3 * xz - a * a * (Z1 * Z2) in
  let v := fp384_three * (X1 * X2) + a * (Z1 * Z2) in
  let w := a * xz + b3 * (Z1 * Z2) in
  mkHomogeneous
    (xy * (Y1 * Y2 - w) - yz * u)
    (v * u + (Y1 * Y2 + w) * (Y1 * Y2 - w))
    (yz * (Y1 * Y2 + w) + xy * v).

(** Equality of homogeneous triples up to a common nonzero factor, by
    cross-multiplication. *)
Definition proj_eqb (P Q : homogeneousPoint) : bool :=
  fp384_eqb (h_x P * h_y Q) (h_x Q * h_y P)
  && fp384_eqb (h_x P * h_z Q) (h_x Q * h_z P)
  && fp384_eqb (h_y P * h_z Q) (h_y Q * h_z P).

End Reference.

(** ** A field layer to run the code on

    Modelled from the spec: the field arithmetic of the package (arith.go and
    its assembly) lies outside point.go.  The spec describes an [fp384] as a
    residue modulo the field prime kept in Montgomery form, [montEncode] and
    [montDecode] as the maps between the integer representation and that
    form, and the inversion as defined on the nonzero elements.  Here a
    residue is a [Zmod m], the stored value of x is x.R mod m, the product is
    the Montgomery product a.b/R, and the inverse of a stored value a is
    R^2/a, which sends 0 to 0. *)

Module Mont.
Section Mont.
Variables (m R b : Z).

Definition Rm : Zmod m := Zmod.of_Z m R.
Definition Rinv : Zmod m := Zmod.inv Rm.
Definition r2 : Zmod m := Zmod.mul Rm Rm.

Definition mul (x y : Zmod m) : Zmod m := Zmod.mul (Zmod.mul x y) Rinv.
Definition inv (x : Zmod m) : Zmod m := Zmod.mul (Zmod.inv x) r2.
Definition cmov (x y : Zmod m) (sel : Z) : Zmod m := if sel =? 1 then y else x.

Definition ops : FieldOps := {|
  fp384 := Zmod m;
  fp384_eqb := Zmod.eqb;
  fp384_zero := Zmod.zero;
  fp384_lit1 := Zmod.of_Z m 1;
  fp384Add := Zmod.add;
  fp384Sub := Zmod.sub;
  fp384Mul := mul;
  fp384Sqr := fun x => mul x x;
  fp384Neg := Zmod.opp;
  fp384Inv := inv;
  fp384Cmov := cmov;
  montEncode := fun x => mul x r2;
  montDecode := fun x => mul x (Zmod.of_Z m 1);
  SetBigInt := Zmod.of_Z m;
  BigInt := Zmod.to_Z;
  bb := Zmod.of_Z m (b * R)
|}.

End Mont.
End Mont.

(** The field prime of P-384, 2^384 - 2^128 - 2^96 + 2^32 - 1. *)
Definition p384 : Z := 2 ^ 384 - 2 ^ 128 - 2 ^ 96 + 2 ^ 32 - 1.

(** The coefficient b of P-384. *)
Definition b384 : Z :=
  0xb3312fa7e23ee7e4988e056be3f82d19181d9c6efe8141120314088f5013875ac656398d8a2ed19d2a85c8edd3ec2aef.

(** The base point of P-384. *)
Definition Gx384 : Z :=
  0xaa87ca22be8b05378eb1c71ef320ad746e1d3b628ba79b9859f741e082542a385502f25dbf55296c3a545e3872760ab7.
Definition Gy384 : Z :=
  0x3617de4a96262c6f5d9e98bf9292dc29f8f41dbd289a147ce9da3113b5f0b8c00a60b1ce1d7e819d7a431d7c90ea0e5f.

(** The field layer of the package: residues modulo [p384], radix 2^384. *)
Definition P384 : FieldOps := Mont.ops p384 (2 ^ 384) b384.

(** The base point, as the package builds it. *)
Definition G384 : @affinePoint P384 := newAffinePoint Gx384 Gy384.

(** The Jacobian triple (2, 3, 0), encoded: Z is zero, X and Y are not. *)
Definition J230 : @jacobianPoint P384 :=
  mkJacobian (@montEncode P384 (@SetBigInt P384 2))
             (@montEncode P384 (@SetBigInt P384 3))
             (@fp384_zero P384).

(** A scaled-down field layer of the same shape, small enough to enumerate:
    residues modulo 13 with radix 16, and the curve y^2 = x^3 - 3x + 1, whose
    group has the prime order 19. *)
Definition F13 : FieldOps := Mont.ops 13 16 1.

(** The point (0, 1) of that curve, as the package builds it. *)
Definition P13 : @affinePoint F13 := newAffinePoint 0 1.

(** ** The contract of the field layer *)

(** What every theorem on the branch structure and on polynomial identities
    needs: [==] decides equality, the encoded elements form a commutative
    ring with [fp384{}] as zero and the encoded [fp384{1}] as one, and the
    squaring is the product of an element with itself. *)
Class RingLaws (FO : FieldOps) : Prop := {
  fp384_eqb_eq : forall a b : fp384, fp384_eqb a b = true <-> a = b;
  fp384_ring :
    ring_theory fp384_zero fp384_one fp384Add fp384Mul fp384Sub fp384Neg eq;
  fp384Sqr_mul : forall a : fp384, fp384Sqr a = fp384Mul a a
}.

(** The full contract: a field in which 2 and 3 are invertible (the field
    prime is larger than 3), with the inversion sending 0 to 0. *)
Class FieldLaws (FO : FieldOps) : Prop := {
  fp384_ring_laws :: RingLaws FO;
  fp384_one_neq_zero : fp384_one <> fp384_zero;
  fp384Inv_l : forall a : fp384,
    a <> fp384_zero -> fp384Mul (fp384Inv a) a = fp384_one;
  fp384Inv_zero : fp384Inv fp384_zero = fp384_zero;
  fp384_two_neq_zero : fp384_two <> fp384_zero;
  fp384_three_neq_zero : fp384_three <> fp384_zero
}.

(** The conditional move: the selector 1 takes the second element, the
    selector 0 keeps the first. *)
Class CmovLaws (FO : FieldOps) : Prop := {
  fp384Cmov_1 : forall x y : fp384, fp384Cmov x y 1 = y;
  fp384Cmov_0 : forall x y : fp384, fp384Cmov x y 0 = x
}.

(** The curve has no point of order two: x^3 - 3x + b has no root.  The group
    of P-384 has odd (prime) order, so this holds for the package's [bb]. *)
Definition no_point_of_order_two {FO : FieldOps} : Prop :=
  forall x : fp384, ~ on_curve x fp384_zero.

(** *** The Montgomery layer meets the contract *)

Section MontLaws.
Variables (m R b : Z).
Hypothesis R_unit : Z.coprime R m.

Lemma Mont_R_Rinv : Zmod.mul (Mont.Rm m R) (Mont.Rinv m R) = Zmod.one.
Proof.
  unfold Mont.Rinv. apply Zmod.mul_inv_same_r_coprime.
  unfold Mont.Rm. rewrite Zmod.to_Z_of_Z.
  apply Z.coprime_mod_l_iff. exact R_unit.
Qed.

Lemma Mont_one : @fp384_one (Mont.ops m R b) = Mont.Rm m R.
Proof.
  unfold fp384_one; simpl. unfold Mont.mul, Mont.r2.
  rewrite Zmod.of_Z_1, Zmod.mul_1_l, <- Zmod.mul_assoc, Mont_R_Rinv.
  apply Zmod.mul_1_r.
Qed.

Add Ring Zmod_ring : (Zmod.ring_theory m).

Lemma Mont_ring_laws : RingLaws (Mont.ops m R b).
Proof.
  pose proof Mont_R_Rinv as HR.
  split.
  - intros x y. apply Zmod.eqb_eq.
  - rewrite Mont_one. simpl. unfold Mont.mul.
    set (r := Mont.Rm m R) in *. set (ri := Mont.Rinv m R) in *.
    split; intros; try ring.
    replace (Zmod.mul (Zmod.mul r x) ri) with (Zmod.mul x (Zmod.mul r ri)) by ring.
    rewrite HR. ring.
  - reflexivity.
Qed.

Hypothesis m_prime : Z.prime m.
Hypothesis m_gt_3 : 3 < m.

Lemma Mont_unit_nz : Mont.Rm m R <> Zmod.zero.
Proof.
  intro E. pose proof Mont_R_Rinv as HR. rewrite E, Zmod.mul_0_l in HR.
  symmetry in HR. revert HR. apply Zmod.one_neq_zero. lia.
Qed.

Lemma Mont_small_nz (k : Z) : 0 < k < m ->
  Zmod.mul (Zmod.of_Z m k) (Mont.Rm m R) <> Zmod.zero.
Proof.
  intros Hk E. apply (Zmod.mul_0_iff_prime m_prime) in E. destruct E as [E | E].
  - apply (f_equal Zmod.to_Z) in E.
    rewrite Zmod.to_Z_of_Z, Zmod.to_Z_0, Z.mod_small in E; lia.
  - exact (Mont_unit_nz E).
Qed.

Lemma Mont_field_laws : FieldLaws (Mont.ops m R b).
Proof.
  pose proof Mont_R_Rinv as HR.
  split.
  - exact Mont_ring_laws.
  - rewrite Mont_one. exact Mont_unit_nz.
  - intros a Ha. rewrite Mont_one. simpl in *. unfold Mont.mul, Mont.inv, Mont.r2.
    set (r := Mont.Rm m R) in *. set (ri := Mont.Rinv m R) in *.
    replace (Zmod.mul (Zmod.mul (Zmod.mul (Zmod.inv a) (Zmod.mul r r)) a) ri)
      with (Zmod.mul (Zmod.mul (Zmod.inv a) a) (Zmod.mul r (Zmod.mul r ri))) by ring.
    rewrite (Zmod.mul_inv_same_l_prime a m_prime Ha), HR. ring.
  - simpl. unfold Mont.inv. rewrite Zmod.inv_0. apply Zmod.mul_0_l.
  - unfold fp384_two. rewrite Mont_one. simpl.
    replace (Zmod.add (Mont.Rm m R) (Mont.Rm m R))
      with (Zmod.mul (Zmod.of_Z m 2) (Mont.Rm m R)).
    + apply Mont_small_nz. lia.
    + change 2 with (1 + 1). rewrite Zmod.of_Z_add, Zmod.of_Z_1, Zmod.mul_add_l.
      rewrite Zmod.mul_1_l. reflexivity.
  - unfold fp384_three. rewrite Mont_one. simpl.
    replace (Zmod.add (Mont.Rm m R) (Zmod.add (Mont.Rm m R) (Mont.Rm m R)))
      with (Zmod.mul (Zmod.of_Z m 3) (Mont.Rm m R)).
    + apply Mont_small_nz. lia.
    + change 3 with (1 + (1 + 1)).
      rewrite !Zmod.of_Z_add, Zmod.of_Z_1, !Zmod.mul_add_l.
      rewrite Zmod.mul_1_l. reflexivity.
Qed.

End MontLaws.

Lemma P384_ring_laws : RingLaws P384.
Proof. apply Mont_ring_laws. vm_compute. reflexivity. Qed.

Lemma prime_13 : Z.prime 13.
Proof.
  split; [lia |]. intros n Hn [k Hk].
  assert (Hc : n = 2 \/ n = 3 \/ n = 4 \/ n = 5 \/ n = 6 \/ n = 7 \/ n = 8
               \/ n = 9 \/ n = 10 \/ n = 11 \/ n = 12) by lia.
  repeat (destruct Hc as [Hc | Hc]; [subst n; lia |]). subst n; lia.
Qed.

Lemma F13_field_laws : FieldLaws F13.
Proof.
  apply Mont_field_laws; [vm_compute; reflexivity | exact prime_13 | lia].
Qed.

(** ** Results that need no arithmetic law *)

(** Claim C8.  For every affine point and every window size outside 2..30
    (so 0, 1 and everything from 31 on), [oddMultiples] returns the empty
    slice: no index is taken, nothing panics. *)
Theorem oddMultiples_out_of_range {FO : FieldOps} (ap : affinePoint) (n : Z) :
  n <= 1 \/ 31 <= n ->
  affinePoint_oddMultiples ap n = Some [].
Proof.
  intros Hn. unfold affinePoint_oddMultiples.
  destruct Hn as [Hn | Hn].
  - apply Z.ltb_ge in Hn. rewrite Hn. reflexivity.
  - apply Z.ltb_ge in Hn. rewrite Hn, andb_false_r. reflexivity.
Qed.

Lemma oddMultiples_out_of_range_witness :
  affinePoint_oddMultiples (FO := P384) (newAffinePoint Gx384 Gy384) 0 = Some []
  /\ affinePoint_oddMultiples (FO := P384) (newAffinePoint Gx384 Gy384) 31 = Some [].
Proof.
  split; apply oddMultiples_out_of_range; [left | right]; lia.
Defined.

Section MemoryModel.
Context {FO : FieldOps}.

Lemma coord_upd_all (vx vy vz : fp384) (P : homogeneousPoint) :
  coord_upd Cz vz (coord_upd Cy vy (coord_upd Cx vx P)) = mkHomogeneous vx vy vz.
Proof. reflexivity. Qed.

Lemma objects_assign_point (P : nat) (vx vy vz : fp384) (m : memory) (o : nat) :
  objects (assign_point P vx vy vz m) o =
  if Nat.eqb o P then mkHomogeneous vx vy vz else objects m o.
Proof.
  unfold assign_point. simpl. destruct (Nat.eqb o P); reflexivity.
Qed.

(** Claim C10.  Whatever the three addresses are, equal or not, the method
    leaves in the receiver the sum computed from the values the operands had
    on entry, and changes no other point. *)
Theorem completeAdd_aliasing_safe (m : memory) (P Q R o : nat) :
  objects (homogeneousPoint_completeAdd_mem P Q R m) o =
  if Nat.eqb o P
  then homogeneousPoint_completeAdd (objects m Q) (objects m R)
  else objects m o.
Proof.
  unfold homogeneousPoint_completeAdd_mem.
  cbv zeta. rewrite objects_assign_point.
  destruct (Nat.eqb o P); reflexivity.
Qed.

End MemoryModel.

(** ** Results over the ring laws *)

Section RingResults.
Context {FO : FieldOps} {RL : RingLaws FO}.

Add Ring fp384_Ring : fp384_ring.

Lemma eqb_refl (a : fp384) : fp384_eqb a a = true.
Proof. apply fp384_eqb_eq. reflexivity. Qed.

Lemma eqb_neq (a b : fp384) : fp384_eqb a b = false <-> a <> b.
Proof.
  split.
  - intros H E. apply fp384_eqb_eq in E. congruence.
  - intros H. destruct (fp384_eqb a b) eqn:E; [| reflexivity].
    apply fp384_eqb_eq in E. contradiction.
Qed.

Lemma eqb_cases (a b : fp384) :
  (a = b /\ fp384_eqb a b = true) \/ (a <> b /\ fp384_eqb a b = false).
Proof.
  destruct (fp384_eqb a b) eqn:E.
  - left. split; [apply fp384_eqb_eq; exact E | reflexivity].
  - right. split; [apply eqb_neq; exact E | reflexivity].
Qed.

(** The code agrees, coordinate by coordinate, with the three polynomials of
    the complete law taken at a = -3 and b = [bb]. *)
Lemma completeAdd_polynomials (Q R : homogeneousPoint) :
  homogeneousPoint_completeAdd Q R = complete_law curve_a bb Q R.
Proof.
  unfold homogeneousPoint_completeAdd, complete_law, curve_a, fp384_three.
  cbv zeta. f_equal; ring.
Qed.

(** [add] with both operands the same non-identity triple: H vanishes and the
    receiver gets the all-zero triple. *)
Lemma add_self_all_zero (P : jacobianPoint) :
  jacobianPoint_isZero P = false ->
  jacobianPoint_add_H P P = fp384_zero /\
  jacobianPoint_add P P = mkJacobian fp384_zero fp384_zero fp384_zero.
Proof.
  intros HP. split.
  - unfold jacobianPoint_add_H. cbv zeta. rewrite !fp384Sqr_mul. ring.
  - unfold jacobianPoint_add. rewrite HP. cbv zeta. rewrite !fp384Sqr_mul.
    f_equal; ring.
Qed.

(** Claim C5, as amended.  The 43 steps compute, coordinate for coordinate,
    the complete addition law of a short-Weierstrass curve with coefficient
    a = -3 (the coefficient of P-384) and b = [bb]; so the two results are
    also equal as projective points. *)
Theorem completeAdd_refines_law_a_minus_3 (Q R : homogeneousPoint) :
  homogeneousPoint_completeAdd Q R = complete_law curve_a bb Q R
  /\ proj_eqb (homogeneousPoint_completeAdd Q R) (complete_law curve_a bb Q R) = true.
Proof.
  rewrite completeAdd_polynomials. split; [reflexivity |].
  unfold proj_eqb. rewrite !eqb_refl. reflexivity.
Qed.

Lemma toAffine_all_zero :
  jacobianPoint_toAffine (mkJacobian fp384_zero fp384_zero fp384_zero) = zeroPoint.
Proof.
  unfold jacobianPoint_toAffine, zeroPoint. cbv zeta. simpl. f_equal; ring.
Qed.

(** Claim C2, as amended.  For every non-identity Jacobian triple P,
    [add(P, P)] makes H the zero element and stores the all-zero triple in
    the receiver.  That triple is not an identity encoding for [isZero]
    (which wants X and Y nonzero); its [toAffine] is the affine identity
    (0,0), which is what the package's test observes. *)
Theorem add_self_yields_all_zero (P : jacobianPoint) :
  jacobianPoint_isZero P = false ->
  jacobianPoint_add_H P P = fp384_zero
  /\ jacobianPoint_add P P = mkJacobian fp384_zero fp384_zero fp384_zero
  /\ jacobianPoint_isZero (jacobianPoint_add P P) = false
  /\ affinePoint_isZero (jacobianPoint_toAffine (jacobianPoint_add P P)) = true.
Proof.
  intros HP. destruct (add_self_all_zero P HP) as [HH HA].
  rewrite HA, toAffine_all_zero. repeat split; try assumption.
  - unfold jacobianPoint_isZero. simpl. rewrite eqb_refl. reflexivity.
  - unfold affinePoint_isZero, zeroPoint. simpl. rewrite eqb_refl. reflexivity.
Qed.

End RingResults.

Lemma completeAdd_refines_law_a_minus_3_witness :
  homogeneousPoint_completeAdd (affinePoint_toHomogeneous G384) (affinePoint_toHomogeneous G384)
  = complete_law curve_a bb (affinePoint_toHomogeneous G384) (affinePoint_toHomogeneous G384).
Proof.
  exact (proj1 (@completeAdd_refines_law_a_minus_3 P384 P384_ring_laws _ _)).
Defined.

(** Claim C5 as stated fails: with the coefficient a = 0 the law gives, for
    the base point added to itself, a different projective point. *)
Lemma completeAdd_differs_from_law_a0 :
  proj_eqb (homogeneousPoint_completeAdd (affinePoint_toHomogeneous G384)
                                         (affinePoint_toHomogeneous G384))
           (complete_law fp384_zero bb (affinePoint_toHomogeneous G384)
                                       (affinePoint_toHomogeneous G384)) = false.
Proof. vm_compute. reflexivity. Qed.

Lemma add_self_yields_all_zero_witness :
  jacobianPoint_isZero (jacobianPoint_add (affinePoint_toJacobian G384)
                                          (affinePoint_toJacobian G384)) = false.
Proof.
  refine (proj1 (proj2 (proj2
    (@add_self_yields_all_zero P384 P384_ring_laws (affinePoint_toJacobian G384) _)))).
  vm_compute. reflexivity.
Defined.

(** Claim C2 as stated fails: the base point is a non-identity point of the
    curve, and [add] of it with itself leaves a triple for which [isZero]
    is false. *)
Lemma add_self_not_identity :
  on_curveb (a_x G384) (a_y G384) = true
  /\ jacobianPoint_isZero (affinePoint_toJacobian G384) = false
  /\ jacobianPoint_isZero (jacobianPoint_add (affinePoint_toJacobian G384)
                                             (affinePoint_toJacobian G384)) = false.
Proof. vm_compute. repeat split. Qed.

(** Claim C9.  An affine point built from integers that are both multiples
    of the field prime (0 and 0 in particular) is the identity sentinel: its
    [isZero] is true, and the conversions lift it to the identity encodings
    of the other two representations. *)
Theorem newAffinePoint_zero_is_identity (X Y : Z) :
  X mod p384 = 0 -> Y mod p384 = 0 ->
  affinePoint_isZero (FO := P384) (newAffinePoint X Y) = true
  /\ jacobianPoint_isZero (affinePoint_toJacobian (FO := P384) (newAffinePoint X Y)) = true
  /\ homogeneousPoint_isZero (affinePoint_toHomogeneous (FO := P384) (newAffinePoint X Y)) = true.
Proof.
  intros HX HY.
  assert (E : newAffinePoint (FO := P384) X Y = newAffinePoint (FO := P384) 0 0).
  { unfold newAffinePoint. simpl.
    rewrite <- (Zmod.of_Z_mod X), <- (Zmod.of_Z_mod Y), HX, HY. reflexivity. }
  rewrite E. vm_compute. repeat split.
Qed.

Lemma newAffinePoint_zero_is_identity_witness :
  affinePoint_isZero (FO := P384) (newAffinePoint 0 (2 * p384)) = true.
Proof.
  refine (proj1 (newAffinePoint_zero_is_identity 0 (2 * p384) _ _)); reflexivity.
Defined.

(** Claim C6 as stated fails: (2, 3, 0) is an identity encoding, and after
    [double] its X is zero, so that [isZero] no longer holds. *)
Lemma double_loses_identity_encoding :
  jacobianPoint_isZero J230 = true
  /\ jacobianPoint_isZero (jacobianPoint_double J230) = false
  /\ fp384_eqb (j_x (jacobianPoint_double J230)) fp384_zero = true.
Proof. vm_compute. repeat split. Qed.

(** ** Results over the field laws *)

Section FieldResults.
Context {FO : FieldOps} {FL : FieldLaws FO}.

Local Notation "0" := fp384_zero : fp_scope.
Local Notation "1" := fp384_one : fp_scope.
Local Infix "+" := fp384Add : fp_scope.
Local Infix "-" := fp384Sub : fp_scope.
Local Infix "*" := fp384Mul : fp_scope.
Local Notation "- x" := (fp384Neg x) : fp_scope.
Local Notation "x / y" := (fp384Mul x (fp384Inv y)) : fp_scope.
Local Open Scope fp_scope.

Lemma fp384_field :
  field_theory 0 1 fp384Add fp384Mul fp384Sub fp384Neg
    (fun a b => a / b) fp384Inv eq.
Proof.
  split.
  - exact fp384_ring.
  - exact fp384_one_neq_zero.
  - reflexivity.
  - exact fp384Inv_l.
Qed.

Add Field fp384_Field : fp384_field.

Lemma mul_zero_cases (a b : fp384) : a * b = 0 -> a = 0 \/ b = 0.
Proof.
  intros H. destruct (eqb_cases a 0) as [[Ha _] | [Ha _]]; [left; exact Ha |].
  right. transitivity (fp384Inv a * (a * b)).
  - field. exact Ha.
  - rewrite H. ring.
Qed.

Lemma mul_nonzero (a b : fp384) : a <> 0 -> b <> 0 -> a * b <> 0.
Proof. intros Ha Hb H. destruct (mul_zero_cases a b H); contradiction. Qed.

#[local] Instance fp384_Ring_ops :
  @Ring_ops fp384 0 1 fp384Add fp384Mul fp384Sub fp384Neg eq := {}.

Ltac fp_red :=
  cbv [equality eq_notation addition add_notation multiplication mul_notation
       subtraction sub_notation opposite opp_notation
       Algebra_syntax.zero zero_notation Algebra_syntax.one one_notation].

#[local] Instance fp384_Ncring : Ring (Ro := fp384_Ring_ops).
Proof.
  split; fp_red; try (intros; ring).
  - apply eq_equivalence.
  - intros ? ? -> ? ? ->. reflexivity.
  - intros ? ? -> ? ? ->. reflexivity.
  - intros ? ? -> ? ? ->. reflexivity.
  - intros ? ? ->. reflexivity.
Qed.

#[local] Instance fp384_Cring : Cring (Rr := fp384_Ncring).
Proof. intros x y. fp_red. ring. Qed.

#[local] Instance fp384_Domain : Integral_domain (Rcr := fp384_Cring).
Proof.
  split; fp_red.
  - intros x y H. apply mul_zero_cases. exact H.
  - exact fp384_one_neq_zero.
Qed.

Lemma inv_r (a : fp384) : a <> 0 -> a * fp384Inv a = 1.
Proof.
  intros Ha. transitivity (fp384Inv a * a); [ring | apply fp384Inv_l; exact Ha].
Qed.

Lemma inv_one : fp384Inv 1 = 1.
Proof.
  transitivity (fp384Inv 1 * 1); [ring | apply fp384Inv_l, fp384_one_neq_zero].
Qed.

Lemma sub_nz (x y : fp384) : x <> y -> y - x <> 0.
Proof.
  intros Hx E. apply Hx. symmetry.
  transitivity (x + (y - x)); [ring | rewrite E; ring].
Qed.

Lemma sub_zero_eq (x y : fp384) : x - y = 0 -> x = y.
Proof.
  intros E. transitivity (y + (x - y)); [ring | rewrite E; ring].
Qed.

Lemma toJacobian_toAffine (P : affinePoint) :
  affinePoint_isZero P = false ->
  jacobianPoint_toAffine (affinePoint_toJacobian P) = P.
Proof.
  intros HP. unfold affinePoint_toJacobian. rewrite HP.
  unfold jacobianPoint_toAffine. cbv zeta. simpl.
  rewrite fp384Sqr_mul, inv_one. destruct P as [x y]. simpl. f_equal; ring.
Qed.

Lemma toHomogeneous_toAffine (P : affinePoint) :
  affinePoint_isZero P = false ->
  homogeneousPoint_toAffine (affinePoint_toHomogeneous P) = P.
Proof.
  intros HP. unfold affinePoint_toHomogeneous. rewrite HP.
  unfold homogeneousPoint_toAffine. cbv zeta. simpl.
  rewrite inv_one. destruct P as [x y]. simpl. f_equal; ring.
Qed.

(** Claim C7.  For every affine point other than the sentinel (on the curve
    or not), lifting to Jacobian and back, and lifting to homogeneous and
    back, return the very same two coordinates. *)
Theorem conversion_round_trip (P : affinePoint) :
  affinePoint_isZero P = false ->
  jacobianPoint_toAffine (affinePoint_toJacobian P) = P
  /\ homogeneousPoint_toAffine (affinePoint_toHomogeneous P) = P.
Proof.
  intros HP. split.
  - apply toJacobian_toAffine. exact HP.
  - apply toHomogeneous_toAffine. exact HP.
Qed.

(** Claim C6, as amended.  For every identity encoding that satisfies the
    Jacobian curve equation at Z = 0, that is Y^2 = X^3 with X, Y nonzero
    (the encoding (1,1,0) of [toJacobian] and [mixadd] among them), [double]
    leaves an identity encoding of the same kind, with no test on the
    operand. *)
Theorem double_keeps_curve_identity (P : jacobianPoint) :
  jacobianPoint_isZero P = true ->
  j_y P * j_y P = j_x P * j_x P * j_x P ->
  let D := jacobianPoint_double P in
  jacobianPoint_isZero D = true
  /\ j_z D = 0 /\ j_x D <> 0 /\ j_y D <> 0
  /\ j_y D * j_y D = j_x D * j_x D * j_x D.
Proof.
  intros HP HC. destruct P as [X Y Z]. simpl in HC.
  unfold jacobianPoint_isZero in HP. simpl in HP.
  apply andb_prop in HP. destruct HP as [HP HZ].
  apply andb_prop in HP. destruct HP as [HX HY].
  apply fp384_eqb_eq in HZ. subst Z.
  apply negb_true_iff, eqb_neq in HX. apply negb_true_iff, eqb_neq in HY.
  assert (EX : j_x (jacobianPoint_double (mkJacobian X Y 0)) = (X * X) * (X * X)).
  { unfold jacobianPoint_double. cbv zeta. simpl. rewrite !fp384Sqr_mul.
    unfold fp384_one in *. nsatz. }
  assert (EY : j_y (jacobianPoint_double (mkJacobian X Y 0)) = (Y * Y) * (Y * Y)).
  { unfold jacobianPoint_double. cbv zeta. simpl. rewrite !fp384Sqr_mul.
    unfold fp384_one in *. nsatz. }
  assert (EZ : j_z (jacobianPoint_double (mkJacobian X Y 0)) = 0).
  { unfold jacobianPoint_double. cbv zeta. simpl. rewrite !fp384Sqr_mul. ring. }
  assert (NX : (X * X) * (X * X) <> 0) by (repeat apply mul_nonzero; assumption).
  assert (NY : (Y * Y) * (Y * Y) <> 0) by (repeat apply mul_nonzero; assumption).
  cbv zeta. unfold jacobianPoint_isZero. rewrite EX, EY, EZ.
  repeat split; try assumption.
  - apply eqb_neq in NX. apply eqb_neq in NY. rewrite NX, NY, eqb_refl. reflexivity.
  - nsatz.
Qed.

Ltac inv_witness d Hd i Hi :=
  pose proof (inv_r d Hd) as Hi;
  set (i := fp384Inv d) in *; clearbody i.

(** *** Reading the identity tests *)

Lemma affine_isZero_true (P : affinePoint) :
  affinePoint_isZero P = true <-> P = zeroPoint.
Proof.
  unfold affinePoint_isZero, zeroPoint. destruct P as [x y]. simpl. split.
  - intros H. apply andb_prop in H. destruct H as [Hx Hy].
    apply fp384_eqb_eq in Hx. apply fp384_eqb_eq in Hy. subst. reflexivity.
  - intros H. injection H as -> ->. rewrite !eqb_refl. reflexivity.
Qed.

Lemma affine_isZero_zeroPoint : affinePoint_isZero zeroPoint = true.
Proof. apply affine_isZero_true. reflexivity. Qed.

Lemma jacobian_isZero_true (P : jacobianPoint) :
  jacobianPoint_isZero P = true <-> j_x P <> 0 /\ j_y P <> 0 /\ j_z P = 0.
Proof.
  unfold jacobianPoint_isZero. rewrite !andb_true_iff, !negb_true_iff, !eqb_neq.
  rewrite fp384_eqb_eq. tauto.
Qed.

Lemma jacobian_isZero_false_Z (P : jacobianPoint) :
  j_z P <> 0 -> jacobianPoint_isZero P = false.
Proof.
  intros HZ. destruct (jacobianPoint_isZero P) eqn:E; [| reflexivity].
  apply jacobian_isZero_true in E. tauto.
Qed.

Lemma homogeneous_isZero_true (P : homogeneousPoint) :
  homogeneousPoint_isZero P = true <-> h_x P = 0 /\ h_y P <> 0 /\ h_z P = 0.
Proof.
  unfold homogeneousPoint_isZero. rewrite !andb_true_iff, !negb_true_iff, !eqb_neq.
  rewrite !fp384_eqb_eq. tauto.
Qed.

Lemma homogeneous_isZero_false_Z (P : homogeneousPoint) :
  h_z P <> 0 -> homogeneousPoint_isZero P = false.
Proof.
  intros HZ. destruct (homogeneousPoint_isZero P) eqn:E; [| reflexivity].
  apply homogeneous_isZero_true in E. tauto.
Qed.

(** *** Decoding *)

Lemma jacobian_toAffine_eq (P : jacobianPoint) :
  jacobianPoint_toAffine P =
  mkAffine (j_x P * (fp384Inv (j_z P) * fp384Inv (j_z P)))
           (j_y P * fp384Inv (j_z P) * (fp384Inv (j_z P) * fp384Inv (j_z P))).
Proof.
  unfold jacobianPoint_toAffine. cbv zeta. rewrite fp384Sqr_mul. reflexivity.
Qed.

Lemma jacobian_toAffine_Z0 (P : jacobianPoint) :
  j_z P = 0 -> jacobianPoint_toAffine P = zeroPoint.
Proof.
  intros HZ. rewrite jacobian_toAffine_eq, HZ, fp384Inv_zero.
  unfold zeroPoint. f_equal; ring.
Qed.

Lemma homogeneous_toAffine_Z0 (P : homogeneousPoint) :
  h_z P = 0 -> homogeneousPoint_toAffine P = zeroPoint.
Proof.
  intros HZ. unfold homogeneousPoint_toAffine. cbv zeta.
  rewrite HZ, fp384Inv_zero. unfold zeroPoint. f_equal; ring.
Qed.

(** *** The branches of the reference law *)

Lemma group_add_zero_l (Q : affinePoint) : group_add zeroPoint Q = Q.
Proof. unfold group_add. rewrite affine_isZero_zeroPoint. reflexivity. Qed.

Lemma group_add_zero_r (P : affinePoint) : group_add P zeroPoint = P.
Proof.
  unfold group_add. rewrite affine_isZero_zeroPoint.
  destruct (affinePoint_isZero P) eqn:E; [| reflexivity].
  apply affine_isZero_true in E. congruence.
Qed.

Lemma group_add_opp (P Q : affinePoint) :
  affinePoint_isZero P = false -> affinePoint_isZero Q = false ->
  a_x P = a_x Q -> a_y P = - a_y Q ->
  group_add P Q = zeroPoint.
Proof.
  intros HP HQ Hx Hy. unfold group_add. rewrite HP, HQ. cbv zeta.
  rewrite Hx, Hy, !eqb_refl. reflexivity.
Qed.

Lemma group_add_tangent (P Q : affinePoint) :
  affinePoint_isZero P = false -> affinePoint_isZero Q = false ->
  a_x P = a_x Q -> a_y P <> - a_y Q ->
  group_add P Q =
  let lam := (fp384_three * (a_x P * a_x P) + curve_a) / (fp384_two * a_y P) in
  let x3 := lam * lam - a_x P - a_x Q in
  mkAffine x3 (lam * (a_x P - x3) - a_y P).
Proof.
  intros HP HQ Hx Hy. unfold group_add. rewrite HP, HQ. cbv zeta.
  apply eqb_neq in Hy. rewrite Hy. rewrite <- Hx at 1. rewrite eqb_refl.
  reflexivity.
Qed.

Lemma group_add_chord (P Q : affinePoint) :
  affinePoint_isZero P = false -> affinePoint_isZero Q = false ->
  a_x P <> a_x Q ->
  group_add P Q =
  let lam := (a_y Q - a_y P) / (a_x Q - a_x P) in
  let x3 := lam * lam - a_x P - a_x Q in
  mkAffine x3 (lam * (a_x P - x3) - a_y P).
Proof.
  intros HP HQ Hx. unfold group_add. rewrite HP, HQ. cbv zeta.
  apply eqb_neq in Hx. rewrite Hx. reflexivity.
Qed.

(** *** The reference law stays on the curve *)

Lemma on_curve_expand (x y : fp384) :
  on_curve x y <-> y * y = x * x * x - (1 + (1 + 1)) * x + bb.
Proof.
  unfold on_curve, curve_a, fp384_three. split; intros H; rewrite H; ring.
Qed.

Lemma same_x_cases (x y1 y2 : fp384) :
  on_curve x y1 -> on_curve x y2 -> y1 = y2 \/ y1 = - y2.
Proof.
  intros H1 H2. apply on_curve_expand in H1, H2.
  assert (E : (y1 - y2) * (y1 + y2) = 0) by nsatz.
  apply mul_zero_cases in E. destruct E as [E | E].
  - left. apply sub_zero_eq. exact E.
  - right. nsatz.
Qed.

Lemma neg_self_zero (y : fp384) : y = - y -> y = 0.
Proof.
  intros E. assert (E2 : fp384_two * y = 0) by (unfold fp384_two; nsatz).
  apply mul_zero_cases in E2. destruct E2 as [E2 | E2]; [| exact E2].
  destruct (fp384_two_neq_zero E2).
Qed.

Lemma chord_on_curve (x1 y1 x2 y2 : fp384) :
  on_curve x1 y1 -> on_curve x2 y2 -> x1 <> x2 ->
  let lam := (y2 - y1) / (x2 - x1) in
  let x3 := lam * lam - x1 - x2 in
  on_curve x3 (lam * (x1 - x3) - y1).
Proof.
  intros H1 H2 Hx. cbv zeta. apply on_curve_expand in H1, H2.
  apply on_curve_expand.
  pose proof (sub_nz _ _ Hx) as Hd.
  inv_witness (x2 - x1) Hd i Hi.
  nsatz.
Qed.

Lemma tangent_on_curve (x1 y1 : fp384) :
  on_curve x1 y1 -> y1 <> 0 ->
  let lam := (fp384_three * (x1 * x1) + curve_a) / (fp384_two * y1) in
  let x3 := lam * lam - x1 - x1 in
  on_curve x3 (lam * (x1 - x3) - y1).
Proof.
  intros H1 Hy. cbv zeta. apply on_curve_expand in H1. apply on_curve_expand.
  assert (Hd : fp384_two * y1 <> 0)
    by (apply mul_nonzero; [exact fp384_two_neq_zero | exact Hy]).
  inv_witness (fp384_two * y1) Hd i Hi.
  unfold curve_a, fp384_three, fp384_two in *. nsatz.
Qed.

Lemma group_add_on_curve (P Q : affinePoint) :
  affinePoint_isZero P = false -> on_curve (a_x P) (a_y P) ->
  affinePoint_isZero Q = false -> on_curve (a_x Q) (a_y Q) ->
  ~ (a_x P = a_x Q /\ a_y P = - a_y Q) ->
  on_curve (a_x (group_add P Q)) (a_y (group_add P Q)).
Proof.
  intros EP HP EQ HQ Hn.
  destruct (eqb_cases (a_x P) (a_x Q)) as [[Hx _] | [Hx _]].
  - assert (Hy : a_y P <> - a_y Q) by tauto.
    rewrite group_add_tangent by assumption. cbv zeta. simpl.
    rewrite <- Hx. apply tangent_on_curve; [exact HP |].
    rewrite <- Hx in HQ.
    destruct (same_x_cases _ _ _ HP HQ) as [E | E]; [| contradiction].
    intro E0. apply Hy. rewrite <- E, E0. ring.
  - rewrite group_add_chord by assumption. cbv zeta. simpl.
    apply chord_on_curve; assumption.
Qed.

Lemma group_add_valid (P Q : affinePoint) :
  affine_valid P -> affine_valid Q -> affine_valid (group_add P Q).
Proof.
  intros HP HQ.
  destruct (affinePoint_isZero P) eqn:EP.
  { apply affine_isZero_true in EP. subst P. rewrite group_add_zero_l. exact HQ. }
  destruct (affinePoint_isZero Q) eqn:EQ.
  { apply affine_isZero_true in EQ. subst Q. rewrite group_add_zero_r. exact HP. }
  destruct HP as [HP | HP]; [congruence |].
  destruct HQ as [HQ | HQ]; [congruence |].
  destruct (eqb_cases (a_x P) (a_x Q)) as [[Hx _] | [Hx _]].
  - destruct (eqb_cases (a_y P) (- a_y Q)) as [[Hy _] | [Hy _]].
    + rewrite group_add_opp by assumption. left. apply affine_isZero_zeroPoint.
    + right. apply group_add_on_curve; try assumption. tauto.
  - right. apply group_add_on_curve; try assumption. tauto.
Qed.

Section OddOrder.
Hypothesis odd_order : no_point_of_order_two.

Lemma on_curve_y_nz (x y : fp384) : on_curve x y -> y <> 0.
Proof. intros H E. subst y. exact (odd_order x H). Qed.

Lemma on_curve_not_sentinel (x y : fp384) :
  on_curve x y -> affinePoint_isZero (mkAffine x y) = false.
Proof.
  intros H. destruct (affinePoint_isZero (mkAffine x y)) eqn:E; [| reflexivity].
  apply affine_isZero_true in E. unfold zeroPoint in E. injection E as -> ->.
  destruct (odd_order _ H).
Qed.

Lemma affine_valid_cases (P : affinePoint) :
  affine_valid P ->
  P = zeroPoint \/ (affinePoint_isZero P = false /\ on_curve (a_x P) (a_y P)).
Proof.
  intros [H | H].
  - left. apply affine_isZero_true. exact H.
  - right. split; [| exact H]. destruct P as [x y]. apply on_curve_not_sentinel. exact H.
Qed.

(** *** Jacobian triples and the affine points they stand for *)

Lemma jacobian_valid_cases (P : jacobianPoint) :
  jacobian_valid P ->
  (jacobianPoint_isZero P = true /\ j_z P = 0) \/
  (jacobianPoint_isZero P = false /\ j_z P <> 0 /\ jacobian_eqn (j_x P) (j_y P) (j_z P)).
Proof.
  intros [H | [HZ H]].
  - left. split; [exact H |]. apply jacobian_isZero_true in H. tauto.
  - right. split; [apply jacobian_isZero_false_Z; exact HZ |]. split; [exact HZ |].
    unfold jacobian_eqn. cbv zeta in H. unfold curve_a, fp384_three in H.
    rewrite H. ring.
Qed.

Lemma jacobian_valid_finite (X Y Z : fp384) :
  Z <> 0 -> jacobian_eqn X Y Z -> jacobian_valid (mkJacobian X Y Z).
Proof.
  intros HZ H. right. split; [exact HZ |]. simpl.
  unfold jacobian_eqn in H. unfold curve_a, fp384_three. rewrite H. ring.
Qed.

Lemma jacobian_affine_on_curve (X Y Z : fp384) :
  Z <> 0 -> jacobian_eqn X Y Z ->
  on_curve (X * (fp384Inv Z * fp384Inv Z))
           (Y * fp384Inv Z * (fp384Inv Z * fp384Inv Z)).
Proof.
  intros HZ H. apply on_curve_expand. unfold jacobian_eqn in H.
  inv_witness Z HZ i Hi. nsatz.
Qed.

Lemma jacobian_eqn_of_affine (X Y Z : fp384) :
  Z <> 0 ->
  on_curve (X * (fp384Inv Z * fp384Inv Z))
           (Y * fp384Inv Z * (fp384Inv Z * fp384Inv Z)) ->
  jacobian_eqn X Y Z.
Proof.
  intros HZ H. apply on_curve_expand in H. unfold jacobian_eqn.
  inv_witness Z HZ i Hi. nsatz.
Qed.

Lemma jacobian_Y_nz (X Y Z : fp384) :
  Z <> 0 -> jacobian_eqn X Y Z -> Y <> 0.
Proof.
  intros HZ H E. pose proof (jacobian_affine_on_curve X Y Z HZ H) as HC.
  apply (on_curve_y_nz) in HC. apply HC. rewrite E. ring.
Qed.

Lemma double_eq (X Y Z : fp384) :
  jacobianPoint_double (mkJacobian X Y Z) =
  let alpha := fp384_three * ((X - Z * Z) * (X + Z * Z)) in
  let X3 := alpha * alpha - (1 + 1) * ((1 + 1) * ((1 + 1) * (X * (Y * Y)))) in
  mkJacobian X3
    (alpha * ((1 + 1) * ((1 + 1) * (X * (Y * Y))) - X3)
     - (1 + 1) * ((1 + 1) * ((1 + 1) * ((Y * Y) * (Y * Y)))))
    (fp384_two * (Y * Z)).
Proof.
  unfold jacobianPoint_double. cbv zeta. simpl. rewrite !fp384Sqr_mul.
  unfold fp384_three, fp384_two. f_equal; ring.
Qed.

Lemma double_correct (P : jacobianPoint) :
  j_z P <> 0 -> jacobian_eqn (j_x P) (j_y P) (j_z P) ->
  j_z (jacobianPoint_double P) <> 0 /\
  jacobianPoint_toAffine (jacobianPoint_double P) =
  group_add (jacobianPoint_toAffine P) (jacobianPoint_toAffine P).
Proof.
  destruct P as [X Y Z]. intros HZ HE. simpl in HZ, HE.
  pose proof (jacobian_Y_nz X Y Z HZ HE) as HY.
  pose proof (jacobian_affine_on_curve X Y Z HZ HE) as HC.
  rewrite double_eq. cbv zeta. simpl.
  assert (HZ3 : fp384_two * (Y * Z) <> 0).
  { apply mul_nonzero; [exact fp384_two_neq_zero |]. apply mul_nonzero; assumption. }
  split; [exact HZ3 |].
  rewrite !jacobian_toAffine_eq. simpl.
  set (x1 := X * (fp384Inv Z * fp384Inv Z)) in *.
  set (y1 := Y * fp384Inv Z * (fp384Inv Z * fp384Inv Z)) in *.
  pose proof (on_curve_y_nz _ _ HC) as Hy1.
  rewrite group_add_tangent; simpl.
  2, 3: apply (on_curve_not_sentinel); exact HC.
  2: reflexivity.
  2: { intro E. apply Hy1. apply neg_self_zero. exact E. }
  assert (Hd : fp384_two * y1 <> 0)
    by (apply mul_nonzero; [exact fp384_two_neq_zero | exact Hy1]).
  subst x1 y1.
  inv_witness (fp384_two * (Y * fp384Inv Z * (fp384Inv Z * fp384Inv Z))) Hd j Hj.
  inv_witness (fp384_two * (Y * Z)) HZ3 k Hk.
  inv_witness Z HZ i Hi.
  unfold curve_a, fp384_three, fp384_two in *.
  f_equal.
  nsatz.
  nsatz.
Qed.

(** *** The partial Jacobian addition on its domain *)

Lemma add_eq (Q R : jacobianPoint) :
  jacobianPoint_isZero Q = false -> jacobianPoint_isZero R = false ->
  jacobianPoint_add Q R =
  let X1 := j_x Q in let Y1 := j_y Q in let Z1 := j_z Q in
  let X2 := j_x R in let Y2 := j_y R in let Z2 := j_z R in
  let U1 := X1 * (Z2 * Z2) in
  let S1 := Y1 * (Z2 * (Z2 * Z2)) in
  let H := X2 * (Z1 * Z1) - U1 in
  let r := Y2 * (Z1 * (Z1 * Z1)) - S1 in
  let X3 := r * r - H * (H * H) - fp384_two * (U1 * (H * H)) in
  mkJacobian X3 (r * (U1 * (H * H) - X3) - S1 * (H * (H * H))) (Z1 * (Z2 * H)).
Proof.
  intros HQ HR. unfold jacobianPoint_add. rewrite HQ, HR. cbv zeta.
  rewrite !fp384Sqr_mul. unfold fp384_two. f_equal; ring.
Qed.

Lemma add_correct (Q R : jacobianPoint) :
  j_z Q <> 0 -> jacobian_eqn (j_x Q) (j_y Q) (j_z Q) ->
  j_z R <> 0 -> jacobian_eqn (j_x R) (j_y R) (j_z R) ->
  a_x (jacobianPoint_toAffine Q) <> a_x (jacobianPoint_toAffine R) ->
  j_z (jacobianPoint_add Q R) <> 0 /\
  jacobianPoint_toAffine (jacobianPoint_add Q R) =
  group_add (jacobianPoint_toAffine Q) (jacobianPoint_toAffine R).
Proof.
  destruct Q as [X1 Y1 Z1], R as [X2 Y2 Z2].
  intros HZ1 HE1 HZ2 HE2 Hx. simpl in HZ1, HE1, HZ2, HE2.
  pose proof (jacobian_affine_on_curve X1 Y1 Z1 HZ1 HE1) as HC1.
  pose proof (jacobian_affine_on_curve X2 Y2 Z2 HZ2 HE2) as HC2.
  rewrite add_eq by (apply jacobian_isZero_false_Z; assumption).
  rewrite group_add_chord; [| | | exact Hx].
  2, 3: rewrite jacobian_toAffine_eq; apply on_curve_not_sentinel; assumption.
  rewrite !jacobian_toAffine_eq in *. cbv zeta. simpl in *.
  clear HC1 HC2 HE1 HE2.
  assert (HH : X2 * (Z1 * Z1) - X1 * (Z2 * Z2) <> 0).
  { intro E. apply Hx.
    inv_witness Z1 HZ1 i1 Hi1. inv_witness Z2 HZ2 i2 Hi2. nsatz. }
  assert (HZ3 : Z1 * (Z2 * (X2 * (Z1 * Z1) - X1 * (Z2 * Z2))) <> 0)
    by (repeat apply mul_nonzero; assumption).
  split; [exact HZ3 |].
  pose proof (sub_nz _ _ Hx) as Hd.
  inv_witness (X2 * (fp384Inv Z2 * fp384Inv Z2) - X1 * (fp384Inv Z1 * fp384Inv Z1)) Hd j Hj.
  inv_witness (Z1 * (Z2 * (X2 * (Z1 * Z1) - X1 * (Z2 * Z2)))) HZ3 k Hk.
  inv_witness Z1 HZ1 i1 Hi1. inv_witness Z2 HZ2 i2 Hi2.
  unfold fp384_two in *.
  f_equal.
  nsatz.
  nsatz.
Qed.

(** *** The mixed addition *)

Lemma jacobian_valid_by_affine (S : jacobianPoint) :
  j_z S <> 0 ->
  on_curve (a_x (jacobianPoint_toAffine S)) (a_y (jacobianPoint_toAffine S)) ->
  jacobian_valid S.
Proof.
  destruct S as [X Y Z]. intros HZ HC. simpl in HZ.
  rewrite jacobian_toAffine_eq in HC. simpl in HC.
  apply jacobian_valid_finite; [exact HZ |].
  apply jacobian_eqn_of_affine; assumption.
Qed.

Lemma toJacobian_valid (R : affinePoint) :
  affine_valid R ->
  jacobian_valid (affinePoint_toJacobian R) /\
  jacobianPoint_toAffine (affinePoint_toJacobian R) = R.
Proof.
  intros HR. apply affine_valid_cases in HR. destruct HR as [-> | [HZ HC]].
  - unfold affinePoint_toJacobian. rewrite affine_isZero_zeroPoint. split.
    + left. apply jacobian_isZero_true. simpl.
      repeat split; try exact fp384_one_neq_zero.
    + apply jacobian_toAffine_Z0. reflexivity.
  - split.
    + unfold affinePoint_toJacobian. rewrite HZ.
      apply jacobian_valid_finite; [exact fp384_one_neq_zero |].
      apply on_curve_expand in HC. unfold jacobian_eqn. nsatz.
    + apply toJacobian_toAffine. exact HZ.
Qed.

Lemma jacobian_finite_affine (Q : jacobianPoint) :
  j_z Q <> 0 -> jacobian_eqn (j_x Q) (j_y Q) (j_z Q) ->
  affinePoint_isZero (jacobianPoint_toAffine Q) = false /\
  on_curve (a_x (jacobianPoint_toAffine Q)) (a_y (jacobianPoint_toAffine Q)).
Proof.
  intros HZ HE. destruct Q as [X Y Z]. simpl in HZ, HE.
  pose proof (jacobian_affine_on_curve X Y Z HZ HE) as HC.
  rewrite jacobian_toAffine_eq. simpl. split; [| exact HC].
  apply on_curve_not_sentinel. exact HC.
Qed.

Lemma mixadd_opp_eq (Q : jacobianPoint) (R : affinePoint) :
  jacobianPoint_isZero Q = false -> affinePoint_isZero R = false ->
  j_x Q = a_x R * (j_z Q * j_z Q) ->
  j_y Q <> a_y R * j_z Q * (j_z Q * j_z Q) ->
  jacobianPoint_mixadd Q R = mkJacobian 1 1 0.
Proof.
  intros HQ HR Hx Hy. unfold jacobianPoint_mixadd. rewrite HQ, HR. cbv zeta.
  rewrite !fp384Sqr_mul. rewrite <- Hx, eqb_refl.
  apply eqb_neq in Hy. rewrite Hy. simpl.
  unfold affinePoint_toJacobian. rewrite affine_isZero_zeroPoint. reflexivity.
Qed.

Lemma mixadd_same_eq (Q : jacobianPoint) (R : affinePoint) :
  jacobianPoint_isZero Q = false -> affinePoint_isZero R = false ->
  j_x Q = a_x R * (j_z Q * j_z Q) ->
  j_y Q = a_y R * j_z Q * (j_z Q * j_z Q) ->
  jacobianPoint_mixadd Q R = jacobianPoint_double Q.
Proof.
  intros HQ HR Hx Hy. unfold jacobianPoint_mixadd. rewrite HQ, HR. cbv zeta.
  rewrite !fp384Sqr_mul. rewrite <- Hx, <- Hy, !eqb_refl. reflexivity.
Qed.

Lemma mixadd_chord_eq (Q : jacobianPoint) (R : affinePoint) :
  jacobianPoint_isZero Q = false -> affinePoint_isZero R = false ->
  j_x Q <> a_x R * (j_z Q * j_z Q) ->
  jacobianPoint_mixadd Q R =
  let X := j_x Q in let Y := j_y Q in let Z := j_z Q in
  let h := a_x R * (Z * Z) - X in
  let r := a_y R * Z * (Z * Z) - Y in
  let X3 := r * r - h * h * h - fp384_two * (h * h * X) in
  mkJacobian X3 ((h * h * X - X3) * r - h * h * h * Y) (h * Z).
Proof.
  intros HQ HR Hx. unfold jacobianPoint_mixadd. rewrite HQ, HR. cbv zeta.
  rewrite !fp384Sqr_mul. apply eqb_neq in Hx. rewrite Hx.
  unfold fp384_two. f_equal; ring.
Qed.

Lemma affine_x_eq_iff (Q : jacobianPoint) (x2 : fp384) :
  j_z Q <> 0 ->
  (a_x (jacobianPoint_toAffine Q) = x2 <-> j_x Q = x2 * (j_z Q * j_z Q)).
Proof.
  intros HZ. rewrite jacobian_toAffine_eq. simpl.
  inv_witness (j_z Q) HZ i Hi. split; intros E; nsatz.
Qed.

Lemma affine_y_eq_iff (Q : jacobianPoint) (y2 : fp384) :
  j_z Q <> 0 ->
  (a_y (jacobianPoint_toAffine Q) = y2 <-> j_y Q = y2 * j_z Q * (j_z Q * j_z Q)).
Proof.
  intros HZ. rewrite jacobian_toAffine_eq. simpl.
  inv_witness (j_z Q) HZ i Hi. split; intros E; nsatz.
Qed.

Lemma mixadd_chord_correct (Q : jacobianPoint) (R : affinePoint) :
  j_z Q <> 0 -> jacobian_eqn (j_x Q) (j_y Q) (j_z Q) ->
  affinePoint_isZero R = false -> on_curve (a_x R) (a_y R) ->
  j_x Q <> a_x R * (j_z Q * j_z Q) ->
  j_z (jacobianPoint_mixadd Q R) <> 0 /\
  jacobianPoint_toAffine (jacobianPoint_mixadd Q R) =
  group_add (jacobianPoint_toAffine Q) R.
Proof.
  intros HZ HE HRZ HRC Hx.
  pose proof (jacobian_finite_affine Q HZ HE) as [HaZ HaC].
  assert (Hax : a_x (jacobianPoint_toAffine Q) <> a_x R).
  { intro E. apply Hx. apply affine_x_eq_iff; assumption. }
  rewrite mixadd_chord_eq; [| apply jacobian_isZero_false_Z | |]; try assumption.
  rewrite group_add_chord by assumption.
  destruct Q as [X Y Z], R as [x2 y2].
  rewrite !jacobian_toAffine_eq in *. cbv zeta. simpl in *.
  assert (HZ3 : (x2 * (Z * Z) - X) * Z <> 0).
  { apply mul_nonzero; [| exact HZ]. apply sub_nz. exact Hx. }
  split; [exact HZ3 |].
  pose proof (sub_nz _ _ Hax) as Hd.
  inv_witness (x2 - X * (fp384Inv Z * fp384Inv Z)) Hd j Hj.
  inv_witness ((x2 * (Z * Z) - X) * Z) HZ3 k Hk.
  clear HaZ HaC HE HRC.
  inv_witness Z HZ i Hi.
  unfold fp384_two in *.
  f_equal; nsatz.
Qed.

Lemma mixadd_sum (Q : jacobianPoint) (R : affinePoint) :
  jacobian_valid Q -> affine_valid R ->
  jacobian_valid (jacobianPoint_mixadd Q R) /\
  jacobianPoint_toAffine (jacobianPoint_mixadd Q R) =
  group_add (jacobianPoint_toAffine Q) R.
Proof.
  intros HQ HR. pose proof HQ as HQ'.
  apply jacobian_valid_cases in HQ. destruct HQ as [[HQ HZ] | [HQ [HZ HE]]].
  { (* Q is the identity *)
    unfold jacobianPoint_mixadd. rewrite HQ.
    rewrite (jacobian_toAffine_Z0 Q HZ), group_add_zero_l.
    apply toJacobian_valid. exact HR. }
  pose proof (jacobian_finite_affine Q HZ HE) as [HaZ HaC].
  apply affine_valid_cases in HR. destruct HR as [-> | [HRZ HRC]].
  { (* R is the identity *)
    unfold jacobianPoint_mixadd. rewrite HQ, affine_isZero_zeroPoint.
    rewrite group_add_zero_r. split; [exact HQ' | reflexivity]. }
  destruct (eqb_cases (j_x Q) (a_x R * (j_z Q * j_z Q))) as [[Hx _] | [Hx _]].
  - pose proof (proj2 (affine_x_eq_iff Q (a_x R) HZ) Hx) as Hax.
    destruct (eqb_cases (j_y Q) (a_y R * j_z Q * (j_z Q * j_z Q))) as [[Hy _] | [Hy _]].
    + (* the same affine point: doubling *)
      pose proof (proj2 (affine_y_eq_iff Q (a_y R) HZ) Hy) as Hay.
      assert (ER : jacobianPoint_toAffine Q = R).
      { destruct (jacobianPoint_toAffine Q), R. simpl in *. congruence. }
      rewrite mixadd_same_eq by assumption.
      pose proof (double_correct Q HZ HE) as [HZ3 HD].
      rewrite ER in HD. rewrite ER. split; [| exact HD].
      apply jacobian_valid_by_affine; [exact HZ3 |]. rewrite HD.
      apply group_add_on_curve; try assumption.
      intros [_ Hn]. apply (on_curve_y_nz _ _ HRC). apply neg_self_zero. exact Hn.
    + (* opposite points *)
      rewrite mixadd_opp_eq by assumption.
      assert (Hay : a_y (jacobianPoint_toAffine Q) = - a_y R).
      { rewrite Hax in HaC.
        destruct (same_x_cases _ _ _ HaC HRC) as [E | E]; [| exact E].
        exfalso. apply Hy. apply affine_y_eq_iff; assumption. }
      rewrite group_add_opp by assumption. split.
      * left. apply jacobian_isZero_true. simpl.
        repeat split; exact fp384_one_neq_zero.
      * apply jacobian_toAffine_Z0. reflexivity.
  - (* distinct x: the chord *)
    pose proof (mixadd_chord_correct Q R HZ HE HRZ HRC Hx) as [HZ3 HS].
    split; [| exact HS].
    apply jacobian_valid_by_affine; [exact HZ3 |]. rewrite HS.
    apply group_add_on_curve; try assumption.
    intros [Hn _]. apply Hx. apply affine_x_eq_iff; assumption.
Qed.

(** Claim C4.  On every Jacobian operand Q and affine operand R that stand
    for group elements, [mixadd] returns a Jacobian triple that stands for
    the group sum Q + R, through the five paths of the code: the lift of R
    when Q is the identity, Q itself when R is the identity, the doubling of
    Q when both are the same affine point, an identity encoding when they
    are opposite, the chord formula otherwise. *)
Theorem mixadd_total (Q : jacobianPoint) (R : affinePoint) :
  jacobian_valid Q -> affine_valid R ->
  let S := jacobianPoint_mixadd Q R in
  (jacobian_valid S
   /\ jacobianPoint_toAffine S = group_add (jacobianPoint_toAffine Q) R)
  /\ (jacobianPoint_isZero Q = true -> S = affinePoint_toJacobian R)
  /\ (jacobianPoint_isZero Q = false -> affinePoint_isZero R = true -> S = Q)
  /\ (jacobianPoint_isZero Q = false -> affinePoint_isZero R = false ->
      jacobianPoint_toAffine Q = R -> S = jacobianPoint_double Q)
  /\ (jacobianPoint_isZero Q = false -> affinePoint_isZero R = false ->
      jacobianPoint_toAffine Q = affinePoint_neg R ->
      jacobianPoint_isZero S = true).
Proof.
  intros HQ HR. cbv zeta. split; [apply mixadd_sum; assumption |].
  split; [| split; [| split]].
  - intros E. unfold jacobianPoint_mixadd. rewrite E. reflexivity.
  - intros E1 E2. unfold jacobianPoint_mixadd. rewrite E1, E2. reflexivity.
  - intros E1 E2 E.
    apply jacobian_valid_cases in HQ. destruct HQ as [[HQ _] | [_ [HZ HE]]]; [congruence |].
    apply mixadd_same_eq; try assumption.
    + apply affine_x_eq_iff; [exact HZ |]. rewrite E. reflexivity.
    + apply affine_y_eq_iff; [exact HZ |]. rewrite E. reflexivity.
  - intros E1 E2 E.
    apply jacobian_valid_cases in HQ. destruct HQ as [[HQ _] | [_ [HZ HE]]]; [congruence |].
    apply affine_valid_cases in HR. destruct HR as [-> | [_ HRC]].
    { rewrite affine_isZero_zeroPoint in E2. discriminate. }
    rewrite mixadd_opp_eq; try assumption.
    + apply jacobian_isZero_true. simpl. repeat split; exact fp384_one_neq_zero.
    + apply affine_x_eq_iff; [exact HZ |]. rewrite E. reflexivity.
    + intro Hy. apply (affine_y_eq_iff Q (a_y R) HZ) in Hy.
      rewrite E in Hy. simpl in Hy.
      apply (on_curve_y_nz _ _ HRC). apply neg_self_zero. symmetry. exact Hy.
Qed.

Ltac solve_nz :=
  repeat apply mul_nonzero;
  first [assumption | exact fp384_two_neq_zero | exact fp384_three_neq_zero
        | exact fp384_one_neq_zero].

(** *** The complete addition on affine representatives *)

Lemma complete_opp (x1 y1 x2 y2 : fp384) :
  on_curve x1 y1 -> on_curve x2 y2 -> x1 = x2 -> y1 = - y2 ->
  let S := complete_law curve_a bb (mkHomogeneous x1 y1 1) (mkHomogeneous x2 y2 1) in
  h_x S = 0 /\ h_z S = 0 /\ h_y S <> 0.
Proof.
  intros H1 H2 Hx Hy. cbv zeta. subst x2.
  pose proof (on_curve_y_nz _ _ H1) as Hy1.
  pose proof (tangent_on_curve _ _ H1 Hy1) as HT. cbv zeta in HT.
  apply on_curve_y_nz in HT.
  apply on_curve_expand in H1, H2.
  unfold complete_law. cbv zeta. simpl.
  unfold curve_a, fp384_three. split; [nsatz | split; [nsatz |]].
  assert (Hd : fp384_two * y1 <> 0)
    by (apply mul_nonzero; [exact fp384_two_neq_zero | exact Hy1]).
  set (yd := (fp384_three * (x1 * x1) + curve_a) / (fp384_two * y1) *
      (x1 - ((fp384_three * (x1 * x1) + curve_a) / (fp384_two * y1) *
         ((fp384_three * (x1 * x1) + curve_a) / (fp384_two * y1)) - x1 - x1)) - y1) in *.
  match goal with |- ?Y <> 0 =>
    assert (EY : Y = (fp384_two * y1) * ((fp384_two * y1) * (fp384_two * y1)) * yd)
  end.
  { subst yd. inv_witness (fp384_two * y1) Hd i Hi.
    unfold curve_a, fp384_three, fp384_two in *. nsatz. }
  rewrite EY. solve_nz.
Qed.

Lemma complete_tangent (x1 y1 x2 y2 : fp384) :
  on_curve x1 y1 -> on_curve x2 y2 -> x1 = x2 -> y1 <> - y2 ->
  let S := complete_law curve_a bb (mkHomogeneous x1 y1 1) (mkHomogeneous x2 y2 1) in
  let lam := (fp384_three * (x1 * x1) + curve_a) / (fp384_two * y1) in
  let x3 := lam * lam - x1 - x2 in
  h_z S <> 0 /\ h_x S = x3 * h_z S /\ h_y S = (lam * (x1 - x3) - y1) * h_z S.
Proof.
  intros H1 H2 Hx Hy. cbv zeta. subst x2.
  pose proof (on_curve_y_nz _ _ H1) as Hy1.
  destruct (same_x_cases _ _ _ H1 H2) as [E | E]; [| contradiction].
  subst y2. clear H2 Hy.
  apply on_curve_expand in H1.
  assert (Hd : fp384_two * y1 <> 0)
    by (apply mul_nonzero; [exact fp384_two_neq_zero | exact Hy1]).
  assert (EZ : h_z (complete_law curve_a bb (mkHomogeneous x1 y1 1) (mkHomogeneous x1 y1 1))
               = (fp384_two * y1) * ((fp384_two * y1) * (fp384_two * y1))).
  { unfold complete_law. cbv zeta. simpl. unfold curve_a, fp384_three, fp384_two. nsatz. }
  split.
  { rewrite EZ. solve_nz. }
  rewrite EZ. clear EZ.
  inv_witness (fp384_two * y1) Hd i Hi.
  unfold complete_law. cbv zeta. simpl.
  unfold curve_a, fp384_three, fp384_two in *.
  split.
  nsatz.
  nsatz.
Qed.

Lemma complete_chord (x1 y1 x2 y2 : fp384) :
  on_curve x1 y1 -> on_curve x2 y2 -> x1 <> x2 ->
  let S := complete_law curve_a bb (mkHomogeneous x1 y1 1) (mkHomogeneous x2 y2 1) in
  let lam := (y2 - y1) / (x2 - x1) in
  let x3 := lam * lam - x1 - x2 in
  h_z S <> 0 /\ h_x S = x3 * h_z S /\ h_y S = (lam * (x1 - x3) - y1) * h_z S.
Proof.
  intros H1 H2 Hx. cbv zeta.
  assert (H2n : on_curve x2 (- y2)).
  { apply on_curve_expand in H2. apply on_curve_expand. nsatz. }
  pose proof (chord_on_curve _ _ _ _ H1 H2n Hx) as HD. cbv zeta in HD.
  apply on_curve_y_nz in HD.
  apply on_curve_expand in H1, H2. clear H2n.
  pose proof (sub_nz _ _ Hx) as Hd.
  inv_witness (x2 - x1) Hd i Hi.
  unfold complete_law. cbv zeta. simpl.
  unfold curve_a, fp384_three in *.
  split.
  { intro E. apply HD. nsatz. }
  split.
  nsatz.
  nsatz.
Qed.

(** *** The complete addition on arbitrary representatives *)

Lemma complete_law_scale (a b l m : fp384) (Q R : homogeneousPoint) :
  complete_law a b (hscale l Q) (hscale m R) =
  hscale ((l * m) * (l * m)) (complete_law a b Q R).
Proof.
  unfold complete_law, hscale. cbv zeta. simpl. f_equal; ring.
Qed.

Lemma homogeneous_decompose (P : homogeneousPoint) :
  h_z P <> 0 ->
  P = hscale (h_z P) (mkHomogeneous (h_x P / h_z P) (h_y P / h_z P) 1).
Proof.
  intros HZ. destruct P as [X Y Z]. simpl in *. unfold hscale. simpl.
  inv_witness Z HZ i Hi. f_equal; nsatz.
Qed.

Lemma homogeneous_valid_cases (P : homogeneousPoint) :
  homogeneous_valid P ->
  (homogeneousPoint_isZero P = true /\ h_x P = 0 /\ h_y P <> 0 /\ h_z P = 0) \/
  (homogeneousPoint_isZero P = false /\ h_z P <> 0 /\
   on_curve (h_x P / h_z P) (h_y P / h_z P)).
Proof.
  intros [H | [HZ H]].
  - left. split; [exact H |]. apply homogeneous_isZero_true. exact H.
  - right. split; [apply homogeneous_isZero_false_Z; exact HZ |]. split; [exact HZ |].
    apply on_curve_expand. unfold curve_a, fp384_three in H.
    inv_witness (h_z P) HZ i Hi. nsatz.
Qed.

Lemma homogeneous_finite_repr (S : homogeneousPoint) (x y : fp384) :
  h_z S <> 0 -> h_x S = x * h_z S -> h_y S = y * h_z S -> on_curve x y ->
  homogeneous_valid S /\ homogeneousPoint_toAffine S = mkAffine x y.
Proof.
  intros HZ HX HY HC. apply on_curve_expand in HC. split.
  - right. split; [exact HZ |]. rewrite HX, HY. unfold curve_a, fp384_three. nsatz.
  - unfold homogeneousPoint_toAffine. cbv zeta. rewrite HX, HY.
    inv_witness (h_z S) HZ i Hi. f_equal; nsatz.
Qed.

Lemma homogeneous_finite_affine (P : homogeneousPoint) :
  h_z P <> 0 -> on_curve (h_x P / h_z P) (h_y P / h_z P) ->
  homogeneousPoint_toAffine P = mkAffine (h_x P / h_z P) (h_y P / h_z P)
  /\ affinePoint_isZero (homogeneousPoint_toAffine P) = false.
Proof.
  intros HZ HC. split; [reflexivity |].
  unfold homogeneousPoint_toAffine. cbv zeta. apply on_curve_not_sentinel. exact HC.
Qed.

Lemma completeAdd_identity_l (Q R : homogeneousPoint) :
  h_x Q = 0 -> h_z Q = 0 ->
  homogeneousPoint_completeAdd Q R = hscale (h_y Q * h_y Q * h_y R) R.
Proof.
  intros HX HZ. rewrite completeAdd_polynomials.
  unfold complete_law, hscale. cbv zeta. rewrite HX, HZ. f_equal; ring.
Qed.

Lemma completeAdd_identity_r (Q R : homogeneousPoint) :
  h_x R = 0 -> h_z R = 0 ->
  homogeneousPoint_completeAdd Q R = hscale (h_y R * h_y R * h_y Q) Q.
Proof.
  intros HX HZ. rewrite completeAdd_polynomials.
  unfold complete_law, hscale. cbv zeta. rewrite HX, HZ. f_equal; ring.
Qed.

Lemma hscale_valid (c : fp384) (P : homogeneousPoint) :
  c <> 0 -> homogeneous_valid P ->
  homogeneous_valid (hscale c P) /\
  homogeneousPoint_toAffine (hscale c P) = homogeneousPoint_toAffine P.
Proof.
  intros Hc HP. apply homogeneous_valid_cases in HP.
  destruct HP as [[_ [HX [HY HZ]]] | [_ [HZ HC]]].
  - split.
    + left. apply homogeneous_isZero_true. unfold hscale. simpl.
      rewrite HX, HZ. repeat split; try ring. solve_nz.
    + rewrite !homogeneous_toAffine_Z0; [reflexivity | exact HZ |].
      unfold hscale. simpl. rewrite HZ. ring.
  - assert (HcZ : c * h_z P <> 0) by solve_nz.
    assert (EX : h_x (hscale c P) = h_x P / h_z P * h_z (hscale c P)).
    { unfold hscale. simpl. inv_witness (h_z P) HZ i Hi. nsatz. }
    assert (EY : h_y (hscale c P) = h_y P / h_z P * h_z (hscale c P)).
    { unfold hscale. simpl. inv_witness (h_z P) HZ i Hi. nsatz. }
    destruct (homogeneous_finite_repr (hscale c P) _ _ HcZ EX EY HC) as [HV HA].
    split; [exact HV |]. rewrite HA. reflexivity.
Qed.

Lemma homogeneous_Y_nz (P : homogeneousPoint) :
  homogeneous_valid P -> h_y P <> 0.
Proof.
  intros HP. apply homogeneous_valid_cases in HP.
  destruct HP as [[_ [_ [HY _]]] | [_ [HZ HC]]]; [exact HY |].
  apply on_curve_y_nz in HC. intro E. apply HC. rewrite E. ring.
Qed.

Lemma completeAdd_sum (Q R : homogeneousPoint) :
  homogeneous_valid Q -> homogeneous_valid R ->
  homogeneous_valid (homogeneousPoint_completeAdd Q R) /\
  homogeneousPoint_toAffine (homogeneousPoint_completeAdd Q R) =
  group_add (homogeneousPoint_toAffine Q) (homogeneousPoint_toAffine R).
Proof.
  intros HQ HR.
  pose proof (homogeneous_Y_nz Q HQ) as HY1.
  pose proof (homogeneous_Y_nz R HR) as HY2.
  pose proof HQ as HQ'. pose proof HR as HR'.
  apply homogeneous_valid_cases in HQ.
  destruct HQ as [[_ [HX1 [_ HZ1]]] | [_ [HZ1 HC1]]].
  { rewrite (completeAdd_identity_l Q R HX1 HZ1).
    rewrite (homogeneous_toAffine_Z0 Q HZ1), group_add_zero_l.
    apply hscale_valid; [solve_nz | exact HR']. }
  apply homogeneous_valid_cases in HR.
  destruct HR as [[_ [HX2 [_ HZ2]]] | [_ [HZ2 HC2]]].
  { rewrite (completeAdd_identity_r Q R HX2 HZ2).
    rewrite (homogeneous_toAffine_Z0 R HZ2), group_add_zero_r.
    apply hscale_valid; [solve_nz | exact HQ']. }
  destruct (homogeneous_finite_affine Q HZ1 HC1) as [EQ NQ].
  destruct (homogeneous_finite_affine R HZ2 HC2) as [ER NR].
  rewrite EQ in NQ. rewrite ER in NR. rewrite EQ, ER.
  set (x1 := h_x Q / h_z Q) in *. set (y1 := h_y Q / h_z Q) in *.
  set (x2 := h_x R / h_z R) in *. set (y2 := h_y R / h_z R) in *.
  set (c := h_z Q * h_z R * (h_z Q * h_z R)).
  assert (Hc : c <> 0) by (unfold c; solve_nz).
  set (S0 := complete_law curve_a bb (mkHomogeneous x1 y1 1) (mkHomogeneous x2 y2 1)).
  assert (ES : homogeneousPoint_completeAdd Q R = hscale c S0).
  { rewrite completeAdd_polynomials.
    rewrite (homogeneous_decompose Q HZ1) at 1.
    rewrite (homogeneous_decompose R HZ2) at 1.
    apply complete_law_scale. }
  rewrite ES.
  destruct (eqb_cases x1 x2) as [[Hx _] | [Hx _]].
  - destruct (eqb_cases y1 (- y2)) as [[Hy _] | [Hy _]].
    + destruct (complete_opp x1 y1 x2 y2 HC1 HC2 Hx Hy) as [E1 [E2 E3]].
      fold S0 in E1, E2, E3. clearbody S0.
      rewrite group_add_opp by assumption. split.
      * left. apply homogeneous_isZero_true. unfold hscale. simpl.
        rewrite E1, E2. repeat split; try ring. solve_nz.
      * apply homogeneous_toAffine_Z0. unfold hscale. simpl. rewrite E2. ring.
    + destruct (complete_tangent x1 y1 x2 y2 HC1 HC2 Hx Hy) as [E1 [E2 E3]].
      fold S0 in E1, E2, E3. clearbody S0.
      pose proof (group_add_on_curve (mkAffine x1 y1) (mkAffine x2 y2) NQ HC1 NR HC2) as HG.
      rewrite group_add_tangent in * by assumption. cbv zeta in HG. simpl in HG.
      apply homogeneous_finite_repr.
      * unfold hscale. simpl. solve_nz.
      * unfold hscale. simpl. rewrite E2. ring.
      * unfold hscale. simpl. rewrite E3. ring.
      * apply HG. simpl. tauto.
  - destruct (complete_chord x1 y1 x2 y2 HC1 HC2 Hx) as [E1 [E2 E3]].
    fold S0 in E1, E2, E3. clearbody S0.
    pose proof (group_add_on_curve (mkAffine x1 y1) (mkAffine x2 y2) NQ HC1 NR HC2) as HG.
    rewrite group_add_chord in * by assumption. cbv zeta in HG. simpl in HG.
    apply homogeneous_finite_repr.
    + unfold hscale. simpl. solve_nz.
    + unfold hscale. simpl. rewrite E2. ring.
    + unfold hscale. simpl. rewrite E3. ring.
    + apply HG. simpl. tauto.
Qed.

Lemma homogeneous_valid_zero_decode (S : homogeneousPoint) :
  homogeneous_valid S -> homogeneousPoint_toAffine S = zeroPoint ->
  homogeneousPoint_isZero S = true.
Proof.
  intros HS HA. apply homogeneous_valid_cases in HS.
  destruct HS as [[HS _] | [_ [HZ HC]]]; [exact HS |].
  destruct (homogeneous_finite_affine S HZ HC) as [_ HN].
  rewrite HA, affine_isZero_zeroPoint in HN. discriminate.
Qed.

(** Claim C1.  For all homogeneous operands that stand for group elements
    (a point of the curve with Z nonzero, or an identity encoding (0, y, 0)
    with y nonzero), [completeAdd] returns a triple that stands for a group
    element and decodes to their group sum; this covers equal operands,
    opposite operands (the result is then an identity encoding) and identity
    operands (the result then decodes to the other operand). *)
Theorem completeAdd_complete (Q R : homogeneousPoint) :
  homogeneous_valid Q -> homogeneous_valid R ->
  let S := homogeneousPoint_completeAdd Q R in
  homogeneous_valid S
  /\ homogeneousPoint_toAffine S =
     group_add (homogeneousPoint_toAffine Q) (homogeneousPoint_toAffine R)
  /\ (homogeneousPoint_isZero R = true ->
      homogeneousPoint_toAffine S = homogeneousPoint_toAffine Q)
  /\ (homogeneousPoint_isZero Q = true ->
      homogeneousPoint_toAffine S = homogeneousPoint_toAffine R)
  /\ (homogeneousPoint_isZero Q = false ->
      R = mkHomogeneous (h_x Q) (- h_y Q) (h_z Q) ->
      homogeneousPoint_isZero S = true).
Proof.
  intros HQ HR. cbv zeta.
  destruct (completeAdd_sum Q R HQ HR) as [HV HS].
  split; [exact HV |]. split; [exact HS |]. split; [| split].
  - intros E. apply homogeneous_isZero_true in E. destruct E as [_ [_ E]].
    rewrite HS, (homogeneous_toAffine_Z0 R E). apply group_add_zero_r.
  - intros E. apply homogeneous_isZero_true in E. destruct E as [_ [_ E]].
    rewrite HS, (homogeneous_toAffine_Z0 Q E). apply group_add_zero_l.
  - intros E ER. apply homogeneous_valid_zero_decode; [exact HV |].
    rewrite HS.
    apply homogeneous_valid_cases in HQ.
    destruct HQ as [[HQ _] | [_ [HZ HC]]]; [congruence |].
    destruct (homogeneous_finite_affine Q HZ HC) as [_ NQ].
    assert (EA : homogeneousPoint_toAffine R =
                 affinePoint_neg (homogeneousPoint_toAffine Q)).
    { rewrite ER. unfold homogeneousPoint_toAffine, affinePoint_neg. simpl.
      f_equal. ring. }
    rewrite EA. apply group_add_opp.
    + exact NQ.
    + unfold affinePoint_neg, homogeneousPoint_toAffine. simpl.
      apply on_curve_not_sentinel. apply on_curve_expand in HC.
      apply on_curve_expand. nsatz.
    + reflexivity.
    + simpl. ring.
Qed.

(** *** Associativity of the reference law *)

Lemma opp_nonzero (a : fp384) : a <> 0 -> - a <> 0.
Proof. intros Ha E. apply Ha. nsatz. Qed.

(** [nsatz] may leave the side condition that an integer constant of its
    certificate is nonzero in the field; the constants met here are products
    of 2 and 3. *)
Ltac const_nz :=
  simpl; fp_red;
  repeat first [ apply opp_nonzero | apply mul_nonzero
               | exact fp384_two_neq_zero | exact fp384_three_neq_zero
               | exact fp384_one_neq_zero ].

Ltac nsatz_fp := nsatz; try const_nz.

Lemma add_spec (P Q : affinePoint) :
  affinePoint_isZero P = false -> on_curve (a_x P) (a_y P) ->
  affinePoint_isZero Q = false -> on_curve (a_x Q) (a_y Q) ->
  (a_x P = a_x Q /\ a_y P = - a_y Q /\ group_add P Q = zeroPoint)
  \/ (exists i x y : fp384,
        a_x P = a_x Q /\ a_y P = a_y Q /\
        (1 + 1) * a_y P * i = 1 /\
        x = ((1 + (1 + 1)) * (a_x P * a_x P) - (1 + (1 + 1))) * i
            * (((1 + (1 + 1)) * (a_x P * a_x P) - (1 + (1 + 1))) * i)
            - a_x P - a_x Q /\
        y = ((1 + (1 + 1)) * (a_x P * a_x P) - (1 + (1 + 1))) * i * (a_x P - x) - a_y P /\
        on_curve x y /\ affinePoint_isZero (mkAffine x y) = false /\
        group_add P Q = mkAffine x y)
  \/ (exists i x y : fp384,
        (a_x Q - a_x P) * i = 1 /\
        x = (a_y Q - a_y P) * i * ((a_y Q - a_y P) * i) - a_x P - a_x Q /\
        y = (a_y Q - a_y P) * i * (a_x P - x) - a_y P /\
        on_curve x y /\ affinePoint_isZero (mkAffine x y) = false /\
        group_add P Q = mkAffine x y).
Proof.
  intros NP CP NQ CQ.
  destruct (eqb_cases (a_x P) (a_x Q)) as [[Hx _] | [Hx _]].
  - destruct (eqb_cases (a_y P) (- a_y Q)) as [[Hy _] | [Hy _]].
    + left. split; [exact Hx |]. split; [exact Hy |]. apply group_add_opp; assumption.
    + right. left.
      assert (Ey : a_y P = a_y Q).
      { rewrite <- Hx in CQ. destruct (same_x_cases _ _ _ CP CQ); [assumption | contradiction]. }
      pose proof (on_curve_y_nz _ _ CP) as Hy1.
      assert (Hd : (1 + 1) * a_y P <> 0) by solve_nz.
      pose proof (group_add_on_curve P Q NP CP NQ CQ) as HC.
      set (i := fp384Inv ((1 + 1) * a_y P)).
      set (lam := ((1 + (1 + 1)) * (a_x P * a_x P) - (1 + (1 + 1))) * i).
      assert (E : group_add P Q =
                  mkAffine (lam * lam - a_x P - a_x Q)
                           (lam * (a_x P - (lam * lam - a_x P - a_x Q)) - a_y P)).
      { rewrite group_add_tangent by assumption. cbv zeta.
        unfold lam, i, curve_a, fp384_three, fp384_two. f_equal; ring. }
      rewrite E in HC. simpl in HC.
      exists i, (lam * lam - a_x P - a_x Q),
             (lam * (a_x P - (lam * lam - a_x P - a_x Q)) - a_y P).
      split; [exact Hx |]. split; [exact Ey |].
      split; [apply inv_r; exact Hd |].
      split; [reflexivity |]. split; [reflexivity |].
      split; [apply HC; tauto |].
      split; [apply on_curve_not_sentinel; apply HC; tauto | exact E].
  - right. right.
    pose proof (sub_nz _ _ Hx) as Hd.
    pose proof (group_add_on_curve P Q NP CP NQ CQ) as HC.
    set (i := fp384Inv (a_x Q - a_x P)).
    set (lam := (a_y Q - a_y P) * i).
    assert (E : group_add P Q =
                mkAffine (lam * lam - a_x P - a_x Q)
                         (lam * (a_x P - (lam * lam - a_x P - a_x Q)) - a_y P)).
    { rewrite group_add_chord by assumption. reflexivity. }
    rewrite E in HC. simpl in HC.
    exists i, (lam * lam - a_x P - a_x Q),
           (lam * (a_x P - (lam * lam - a_x P - a_x Q)) - a_y P).
    split; [apply inv_r; exact Hd |].
    split; [reflexivity |]. split; [reflexivity |].
    split; [apply HC; tauto |].
    split; [apply on_curve_not_sentinel; apply HC; tauto | exact E].
Qed.

Ltac add_cases A B :=
  let H := fresh "S" in
  pose proof (add_spec A B ltac:(assumption) ltac:(assumption)
                            ltac:(assumption) ltac:(assumption)) as H;
  let i := fresh "i" in let x := fresh "x" in let y := fresh "y" in
  let Ex := fresh "Ex" in let Ey := fresh "Ey" in let Hi := fresh "Hi" in
  let Hx := fresh "Hx" in let Hy := fresh "Hy" in let C := fresh "C" in
  let N := fresh "N" in let E := fresh "E" in
  destruct H as [(Ex & Ey & E) | [(i & x & y & Ex & Ey & Hi & Hx & Hy & C & N & E)
                                  | (i & x & y & Hi & Hx & Hy & C & N & E)]];
  cbn [a_x a_y] in *;
  rewrite E; clear E;
  rewrite ?group_add_zero_l, ?group_add_zero_r.

Ltac expand_curves :=
  repeat match goal with
         | H : on_curve _ _ |- _ => apply on_curve_expand in H
         end.

Ltac leaf :=
  repeat match goal with
         | H : on_curve _ _ |- _ => clear H
         | H : affinePoint_isZero _ = _ |- _ => clear H
         | H : _ <> _ |- _ => clear H
         end;
  subst;
  match goal with
  | |- ?A = ?A => reflexivity
  | |- mkAffine _ _ = mkAffine _ _ => f_equal; nsatz_fp
  | |- _ => exfalso; apply fp384_one_neq_zero; nsatz_fp
  end.

Lemma assoc_double (P A : affinePoint) :
  affinePoint_isZero P = false -> on_curve (a_x P) (a_y P) ->
  affinePoint_isZero A = false -> on_curve (a_x A) (a_y A) ->
  A <> group_add P P ->
  group_add P A <> zeroPoint ->
  group_add P (group_add P A) <> zeroPoint ->
  group_add A (group_add P P) = group_add P (group_add P A).
Proof.
  intros NP CP NA CA H0 H1 H2.
  destruct P as [x1 y1], A as [x2 y2]. cbn [a_x a_y] in *.
  pose proof (proj1 (on_curve_expand _ _) CP) as EP.
  pose proof (proj1 (on_curve_expand _ _) CA) as EA.
  revert H0 H1 H2.
  add_cases (mkAffine x1 y1) (mkAffine x1 y1);
  add_cases (mkAffine x1 y1) (mkAffine x2 y2).
  all: intros H0 H1 H2; try (exfalso; apply H1; reflexivity).
  all: repeat match goal with
       | |- context [group_add (mkAffine ?a ?b) (mkAffine ?c ?d)] =>
           revert H0 H2; add_cases (mkAffine a b) (mkAffine c d); intros H0 H2
       end.
  all: try (exfalso; apply H2; reflexivity).
  all: try (exfalso; apply H0; f_equal; assumption).
  all: leaf.
Qed.

Lemma add_ne_right (A D : affinePoint) :
  affinePoint_isZero A = false -> on_curve (a_x A) (a_y A) ->
  affinePoint_isZero D = false -> on_curve (a_x D) (a_y D) ->
  group_add A D <> D.
Proof.
  intros NA CA ND CD.
  destruct A as [x1 y1], D as [x2 y2]. cbn [a_x a_y] in *.
  pose proof (proj1 (on_curve_expand _ _) CA) as EA.
  pose proof (proj1 (on_curve_expand _ _) CD) as ED.
  pose proof (on_curve_y_nz _ _ CD) as Hy2.
  inv_witness y2 Hy2 j Hj.
  add_cases (mkAffine x1 y1) (mkAffine x2 y2); intros E.
  - rewrite <- E, affine_isZero_zeroPoint in ND. discriminate.
  - injection E as E1 E2. leaf.
  - injection E as E1 E2. leaf.
Qed.

(** *** Odd multiples in the reference group *)

Lemma group_mul_valid (k : nat) (P : affinePoint) :
  affine_valid P -> affine_valid (group_mul k P).
Proof.
  intros HP. induction k as [| k IH]; simpl.
  - left. apply affine_isZero_zeroPoint.
  - apply group_add_valid; assumption.
Qed.

Lemma affine_finite (A : affinePoint) :
  affine_valid A -> A <> zeroPoint ->
  affinePoint_isZero A = false /\ on_curve (a_x A) (a_y A).
Proof.
  intros HA HN. apply affine_valid_cases in HA.
  destruct HA as [E | H]; [contradiction | exact H].
Qed.

Lemma group_mul_1 (P : affinePoint) : group_mul 1 P = P.
Proof. simpl. apply group_add_zero_r. Qed.

Lemma odd_multiple_step (P : affinePoint) (j : nat) :
  affine_valid P ->
  (forall k : nat, (0 < k <= 2 * j + 3)%nat -> group_mul k P <> zeroPoint) ->
  group_mul (2 * j + 1) P <> group_add P P /\
  group_mul (2 * j + 3) P = group_add (group_mul (2 * j + 1) P) (group_add P P).
Proof.
  intros HP. induction j as [| j IH]; intros HK.
  - assert (H1 : group_mul 1 P <> zeroPoint) by (apply HK; lia).
    rewrite group_mul_1 in H1.
    destruct (affine_finite P HP H1) as [NP CP].
    change (2 * 0 + 1)%nat with 1%nat. rewrite group_mul_1.
    assert (H0 : P <> group_add P P).
    { intro E. symmetry in E. revert E. apply add_ne_right; assumption. }
    split; [exact H0 |].
    change (2 * 0 + 3)%nat with 3%nat.
    change (group_mul 3 P) with (group_add P (group_add P (group_mul 1 P))).
    rewrite group_mul_1. reflexivity.
  - destruct IH as [IH0 IH1]; [intros k Hk; apply HK; lia |].
    assert (H1 : group_mul 1 P <> zeroPoint) by (apply HK; lia).
    rewrite group_mul_1 in H1.
    destruct (affine_finite P HP H1) as [NP CP].
    replace (2 * S j + 1)%nat with (2 * j + 3)%nat by lia.
    replace (2 * S j + 3)%nat with (S (S (2 * j + 3)))%nat by lia.
    assert (HA : group_mul (2 * j + 3) P <> zeroPoint) by (apply HK; lia).
    destruct (affine_finite _ (group_mul_valid (2 * j + 3) P HP) HA) as [NA CA].
    assert (H2 : group_mul 2 P <> zeroPoint) by (apply HK; lia).
    change (group_mul 2 P) with (group_add P (group_mul 1 P)) in H2.
    rewrite group_mul_1 in H2.
    destruct (affine_finite _ (group_add_valid P P HP HP) H2) as [ND CD].
    assert (H0 : group_mul (2 * j + 3) P <> group_add P P).
    { rewrite IH1. apply add_ne_right; try assumption.
      - assert (HB : group_mul (2 * j + 1) P <> zeroPoint) by (apply HK; lia).
        apply (affine_finite _ (group_mul_valid (2 * j + 1) P HP) HB).
      - assert (HB : group_mul (2 * j + 1) P <> zeroPoint) by (apply HK; lia).
        apply (affine_finite _ (group_mul_valid (2 * j + 1) P HP) HB). }
    split; [exact H0 |].
    change (group_mul (S (S (2 * j + 3))) P)
      with (group_add P (group_add P (group_mul (2 * j + 3) P))).
    symmetry. apply assoc_double; try assumption.
    + change (group_add P (group_mul (2 * j + 3) P)) with (group_mul (S (2 * j + 3)) P).
      apply HK. lia.
    + change (group_add P (group_add P (group_mul (2 * j + 3) P)))
        with (group_mul (S (S (2 * j + 3))) P).
      apply HK. lia.
Qed.

(** *** The table of odd multiples *)

Lemma jacobian_finite_by_affine (T : jacobianPoint) :
  j_z T <> 0 ->
  on_curve (a_x (jacobianPoint_toAffine T)) (a_y (jacobianPoint_toAffine T)) ->
  jacobian_finite T.
Proof.
  intros HZ HC. split; [exact HZ |].
  rewrite jacobian_toAffine_eq in HC. simpl in HC.
  apply jacobian_eqn_of_affine; assumption.
Qed.

Lemma jacobian_finite_valid (T : jacobianPoint) :
  jacobian_finite T -> jacobian_valid T.
Proof.
  intros [HZ HE]. destruct T as [X Y Z]. apply jacobian_valid_finite; assumption.
Qed.

Lemma first_entry (P : affinePoint) :
  affinePoint_isZero P = false -> on_curve (a_x P) (a_y P) ->
  odd_entry P 0 (affinePoint_toJacobian P) /\
  jacobian_finite (jacobianPoint_double (affinePoint_toJacobian P)) /\
  jacobianPoint_toAffine (jacobianPoint_double (affinePoint_toJacobian P)) =
  group_add P P.
Proof.
  intros NP CP.
  pose proof (toJacobian_toAffine P NP) as ER.
  assert (HF : jacobian_finite (affinePoint_toJacobian P)).
  { apply jacobian_finite_by_affine.
    - unfold affinePoint_toJacobian. rewrite NP. simpl. exact fp384_one_neq_zero.
    - rewrite ER. exact CP. }
  split.
  - split; [exact HF |]. rewrite ER. symmetry. apply group_mul_1.
  - destruct HF as [HZ HE].
    destruct (double_correct _ HZ HE) as [HZ2 HD]. rewrite ER in HD.
    split; [| exact HD].
    apply jacobian_finite_by_affine; [exact HZ2 |]. rewrite HD.
    apply group_add_on_curve; try assumption.
    intros [_ E]. apply (on_curve_y_nz _ _ CP). apply neg_self_zero. exact E.
Qed.

Lemma next_entry (P : affinePoint) (j : nat) (T D2 : jacobianPoint) :
  affine_valid P ->
  (forall k : nat, (0 < k <= 2 * j + 3)%nat -> group_mul k P <> zeroPoint) ->
  odd_entry P j T ->
  jacobian_finite D2 -> jacobianPoint_toAffine D2 = group_add P P ->
  odd_entry P (S j) (jacobianPoint_add T D2).
Proof.
  intros HP HK [[HZ HE] HA] [HZ2 HE2] HD.
  destruct (odd_multiple_step P j HP HK) as [H0 H1].
  assert (HN : group_mul (2 * j + 3) P <> zeroPoint) by (apply HK; lia).
  destruct (affine_finite _ (group_mul_valid _ P HP) HN) as [NN CN].
  destruct (jacobian_finite_affine T HZ HE) as [NA CA].
  destruct (jacobian_finite_affine D2 HZ2 HE2) as [ND CD].
  assert (Hx : a_x (jacobianPoint_toAffine T) <> a_x (jacobianPoint_toAffine D2)).
  { intro Ex. rewrite <- Ex in CD.
    destruct (same_x_cases _ _ _ CA CD) as [Ey | Ey].
    - apply H0. rewrite <- HA, <- HD.
      destruct (jacobianPoint_toAffine T), (jacobianPoint_toAffine D2).
      simpl in *. congruence.
    - apply HN. rewrite H1, <- HA, <- HD. apply group_add_opp; assumption. }
  destruct (add_correct T D2 HZ HE HZ2 HE2 Hx) as [HZ3 HS].
  rewrite HA, HD, <- H1 in HS.
  unfold odd_entry. replace (2 * S j + 1)%nat with (2 * j + 3)%nat by lia.
  split; [| exact HS].
  apply jacobian_finite_by_affine; [exact HZ3 |]. rewrite HS. exact CN.
Qed.

Lemma slice_put_spec (t : list jacobianPoint) (i : nat) (v : jacobianPoint) :
  (i < length t)%nat ->
  exists t', slice_put t i v = Some t' /\ length t' = length t /\
             nth_error t' i = Some v /\
             forall j, j <> i -> nth_error t' j = nth_error t j.
Proof.
  revert i. induction t as [| a t IH]; intros i Hi; simpl in Hi; [lia |].
  destruct i as [| i].
  - exists (v :: t). simpl. repeat split.
    intros j Hj. destruct j; [congruence | reflexivity].
  - destruct (IH i ltac:(lia)) as [t' [E [HL [HN HO]]]].
    exists (a :: t'). simpl. rewrite E. repeat split.
    + simpl. congruence.
    + exact HN.
    + intros j Hj. destruct j; [reflexivity |]. simpl. apply HO. congruence.
Qed.

Lemma int32_small (z : Z) : (- 2 ^ 31 <= z < 2 ^ 31)%Z -> int32 z = z.
Proof.
  intros Hz. unfold int32.
  rewrite Z.mod_small by lia. lia.
Qed.

Lemma oddMultiples_for_spec (P : affinePoint) (D2 : jacobianPoint) (s : Z) :
  affine_valid P ->
  jacobian_finite D2 -> jacobianPoint_toAffine D2 = group_add P P ->
  (0 < s < 2 ^ 30)%Z ->
  (forall k : nat, (0 < Z.of_nat k < 2 * s)%Z -> group_mul k P <> zeroPoint) ->
  forall (fuel : nat) (i : Z) (t : list jacobianPoint),
    (1 <= i <= s)%Z -> (Z.to_nat (s - i) <= fuel)%nat ->
    Z.of_nat (length t) = s ->
    (forall j : nat, (Z.of_nat j < i)%Z ->
       exists T, nth_error t j = Some T /\ odd_entry P j T) ->
    exists t', oddMultiples_for fuel s i D2 t = Some t' /\
               Z.of_nat (length t') = s /\
               forall j : nat, (Z.of_nat j < s)%Z ->
                 exists T, nth_error t' j = Some T /\ odd_entry P j T.
Proof.
  intros HP HD2 HD Hs HK fuel.
  induction fuel as [| fuel IH]; intros i t Hi Hf HL HI.
  - assert (i = s) by lia. subst i. exists t. simpl.
    rewrite Z.ltb_irrefl. repeat split; assumption.
  - simpl. destruct (Z.ltb_spec i s) as [Hlt | Hge].
    + destruct (HI (Z.to_nat (i - 1)) ltac:(lia)) as [Tp [EN EP]].
      unfold slice_get, slice_set.
      destruct (Z.ltb_spec (i - 1) 0) as [? | _]; [lia |].
      destruct (Z.ltb_spec i 0) as [? | _]; [lia |].
      rewrite EN.
      destruct (slice_put_spec t (Z.to_nat i) (jacobianPoint_add Tp D2) ltac:(lia))
        as [t' [E [HL' [HN HO]]]].
      rewrite E. rewrite int32_small by lia.
      apply IH; try lia.
      intros j Hj. destruct (Nat.eq_dec j (Z.to_nat i)) as [-> | Hne].
      * exists (jacobianPoint_add Tp D2). split; [exact HN |].
        replace (Z.to_nat i) with (S (Z.to_nat (i - 1))) by lia.
        apply next_entry; try assumption.
        intros k Hk. apply HK. lia.
      * rewrite (HO j Hne). apply HI. lia.
    + assert (i = s) by lia. subst i. exists t. repeat split; assumption.
Qed.

Lemma int32_shl1_pow (k : Z) : (0 <= k < 31)%Z -> int32_shl1 k = (2 ^ k)%Z.
Proof.
  intros Hk. unfold int32_shl1.
  destruct (Z.ltb_spec k 32) as [_ | ?]; [| lia].
  rewrite Z.shiftl_1_l. apply int32_small.
  assert (2 ^ k <= 2 ^ 30)%Z by (apply Z.pow_le_mono_r; lia).
  assert (0 < 2 ^ k)%Z by (apply Z.pow_pos_nonneg; lia). lia.
Qed.

Lemma oddMultiples_spec (P : affinePoint) (w : Z) :
  affine_valid P -> (2 <= w < 31)%Z ->
  (forall k : nat, (0 < Z.of_nat k < 2 ^ w)%Z -> group_mul k P <> zeroPoint) ->
  exists t, affinePoint_oddMultiples P w = Some t /\
            Z.of_nat (length t) = (2 ^ (w - 1))%Z /\
            forall j : nat, (Z.of_nat j < 2 ^ (w - 1))%Z ->
              exists T, nth_error t j = Some T /\ odd_entry P j T.
Proof.
  intros HP Hw HK.
  assert (Hpow : (2 ^ w = 2 * 2 ^ (w - 1))%Z).
  { replace w with (Z.succ (w - 1)) at 1 by lia. apply Z.pow_succ_r. lia. }
  assert (Hs : (2 <= 2 ^ (w - 1) < 2 ^ 30)%Z).
  { split.
    - change 2%Z with (2 ^ 1)%Z at 1. apply Z.pow_le_mono_r; lia.
    - apply Z.pow_lt_mono_r; lia. }
  assert (H1 : group_mul 1 P <> zeroPoint) by (apply HK; lia).
  rewrite group_mul_1 in H1.
  destruct (affine_finite P HP H1) as [NP CP].
  destruct (first_entry P NP CP) as [H0 [HD2 HD]].
  unfold affinePoint_oddMultiples.
  destruct (Z.ltb_spec 1 w) as [_ | ?]; [| lia].
  destruct (Z.ltb_spec w 31) as [_ | ?]; [| lia].
  cbv zeta. simpl andb. cbv iota.
  rewrite int32_shl1_pow by lia.
  set (s := (2 ^ (w - 1))%Z) in *.
  unfold slice_set. simpl (0 <? 0)%Z. cbv iota.
  assert (HLm : length (make_jacobian s) = Z.to_nat s).
  { unfold make_jacobian. apply repeat_length. }
  destruct (slice_put_spec (make_jacobian s) (Z.to_nat 0) (affinePoint_toJacobian P)
              ltac:(rewrite HLm; simpl; lia)) as [t0 [E [HL [HN HO]]]].
  rewrite E. rewrite int32_small by lia.
  apply (oddMultiples_for_spec P _ s HP HD2 HD); try lia.
  - intros k Hk. apply HK. lia.
  - intros j Hj. assert (j = 0%nat) by lia. subst j.
    exists (affinePoint_toJacobian P). split; [exact HN | exact H0].
Qed.

(** Claim C3.  For every affine point P of the curve whose multiples k.P
    with 0 < k < 2^w are all different from the point at infinity (its order
    is at least 2^w), and every window size 2 <= w < 31, [oddMultiples]
    returns, without a fault, exactly 2^(w-1) Jacobian points, the j-th of
    which stands for a group element and decodes to (2j+1).P. *)
Theorem oddMultiples_table (P : affinePoint) (w : Z) :
  affine_valid P -> (2 <= w < 31)%Z ->
  (forall k : nat, (0 < Z.of_nat k < 2 ^ w)%Z -> group_mul k P <> zeroPoint) ->
  exists t, affinePoint_oddMultiples P w = Some t /\
            Z.of_nat (length t) = (2 ^ (w - 1))%Z /\
            forall j : nat, (Z.of_nat j < 2 ^ (w - 1))%Z ->
              exists T, nth_error t j = Some T /\
                        jacobian_valid T /\
                        jacobianPoint_toAffine T = group_mul (2 * j + 1) P.
Proof.
  intros HP Hw HK.
  destruct (oddMultiples_spec P w HP Hw HK) as [t [E [HL HT]]].
  exists t. split; [exact E |]. split; [exact HL |].
  intros j Hj. destruct (HT j Hj) as [T [EN [HF HA]]].
  exists T. split; [exact EN |]. split; [| exact HA].
  apply jacobian_finite_valid. exact HF.
Qed.

End OddOrder.

End FieldResults.

(** ** The results on concrete field layers *)

Lemma F13_on_curve_iff (x y : @fp384 F13) :
  on_curve x y <-> on_curveb x y = true.
Proof. unfold on_curve, on_curveb. symmetry. apply Zmod.eqb_eq. Qed.

Lemma F13_odd_order : @no_point_of_order_two F13.
Proof.
  intros x H. apply F13_on_curve_iff in H.
  assert (HA : forallb (fun x : @fp384 F13 => negb (on_curveb x fp384_zero))
                       (Zmod.elements 13) = true) by (vm_compute; reflexivity).
  rewrite forallb_forall in HA.
  specialize (HA x (Zmod.in_elements x ltac:(lia))).
  rewrite H in HA. discriminate.
Qed.

Lemma P13_valid : affine_valid P13.
Proof. right. apply F13_on_curve_iff. vm_compute. reflexivity. Qed.

Lemma P13_multiples (k : nat) :
  0 < Z.of_nat k < 2 ^ 2 -> group_mul k P13 <> zeroPoint.
Proof.
  intros Hk.
  assert (Hc : k = 1%nat \/ k = 2%nat \/ k = 3%nat) by lia.
  clear Hk.
  destruct Hc as [-> | [-> | ->]]; intro E;
    apply (f_equal affinePoint_isZero) in E; vm_compute in E; discriminate.
Qed.

Lemma completeAdd_complete_witness :
  homogeneous_valid
    (homogeneousPoint_completeAdd (affinePoint_toHomogeneous P13)
                                  (affinePoint_toHomogeneous P13)).
Proof.
  assert (HV : homogeneous_valid (affinePoint_toHomogeneous P13)).
  { right. split.
    - exact (@fp384_one_neq_zero F13 F13_field_laws).
    - apply Zmod.eqb_eq. vm_compute. reflexivity. }
  exact (proj1 (@completeAdd_complete F13 F13_field_laws F13_odd_order _ _ HV HV)).
Defined.

Lemma oddMultiples_table_witness :
  exists t, affinePoint_oddMultiples P13 2 = Some t /\
            Z.of_nat (length t) = 2 ^ (2 - 1) /\
            forall j : nat, Z.of_nat j < 2 ^ (2 - 1) ->
              exists T, nth_error t j = Some T /\
                        jacobian_valid T /\
                        jacobianPoint_toAffine T = group_mul (2 * j + 1) P13.
Proof.
  apply (@oddMultiples_table F13 F13_field_laws F13_odd_order P13 2 P13_valid).
  - lia.
  - exact P13_multiples.
Defined.

Lemma mixadd_total_witness :
  jacobianPoint_toAffine (jacobianPoint_mixadd (affinePoint_toJacobian P13) P13)
  = group_add (jacobianPoint_toAffine (affinePoint_toJacobian P13)) P13.
Proof.
  refine (proj2 (proj1 (@mixadd_total F13 F13_field_laws F13_odd_order
                          (affinePoint_toJacobian P13) P13 _ P13_valid))).
  exact (proj1 (@toJacobian_valid F13 F13_field_laws F13_odd_order P13 P13_valid)).
Defined.

Lemma double_keeps_curve_identity_witness :
  jacobianPoint_isZero
    (jacobianPoint_double (affinePoint_toJacobian (@zeroPoint F13))) = true.
Proof.
  refine (proj1 (@double_keeps_curve_identity F13 F13_field_laws
                   (affinePoint_toJacobian (@zeroPoint F13)) _ _)).
  - vm_compute. reflexivity.
  - apply Zmod.eqb_eq. vm_compute. reflexivity.
Defined.

Lemma conversion_round_trip_witness :
  jacobianPoint_toAffine (affinePoint_toJacobian P13) = P13
  /\ homogeneousPoint_toAffine (affinePoint_toHomogeneous P13) = P13.
Proof.
  apply (@conversion_round_trip F13 F13_field_laws P13).
  vm_compute. reflexivity.
Defined.
